(** * The simplified Jotai core and the [useAtom] hook

    Two pieces of the repository are embedded here.

    - [Core]: the "Second Version" of the guide "Core internals", a
      simplified version of the core: [atom], [getAtomState], [readAtom],
      [notify], [writeAtom] and the hook built on them.  The [WeakMap] from
      atoms to their state is a finite map keyed by the identity of the atom
      object; the JavaScript [Set]s are insertion-ordered lists without
      repeats; the functions an atom is configured with are programs over
      the [get] and [set] they are handed.  The recursion of [readAtom],
      [notify] and [writeAtom] is bounded by fuel: a call that needs more
      than any fuel is a call that does not return.
    - [Hook]: [useAtom] of src/core/useAtom.ts, over the store operations it
      imports.

    [Async] holds the settlement discipline that the specification asks of
    the store for asynchronous values. *)

From stdpp Require Import gmap list strings.

(** ** JavaScript values

    The core is untyped: an atom holds any value.  It inspects a value in two
    ways only, [typeof arg === 'function'] and the call [arg (x)], so the
    universe of values is kept abstract with exactly these two operations.
    Functions stored in atoms or passed as updates are taken to be pure and
    total. *)
Class JsValue := {
  value : Type;
  undefined : value;
  isFunction : value -> bool;
  call : value -> value -> value
}.

Module Core.

(** An atom is an object compared by identity ([a === atom]): its identity is
    a number, and the objects themselves are found through [def] below. *)
Definition atomId := nat.

(** A callback registered by a mounted component. *)
Definition listenerId := nat.

Section Programs.
Context `{JsValue}.

(** A read function [(get) => ...]: it calls [get] any number of times and
    returns a value.  What it does next depends on the values [get] returned
    only; it throws nothing of its own. *)
Inductive rprog : Type :=
| RRet (v : value)
| RGet (a : atomId) (k : value -> rprog).

(** A write function [(get, set, arg) => ...], once applied to [arg]: it calls
    [get] and [set] any number of times; its result is not used. *)
Inductive wprog : Type :=
| WRet
| WGet (a : atomId) (k : value -> wprog)
| WSet (a : atomId) (v : value) (k : wprog).

(** The config object returned by [atom].  [init] is [undefined] on an object
    that has no such property; [write] is [None] when the property is
    [undefined]. *)
Record Atom : Type := mkAtom {
  init : value;
  read : rprog;
  write : option (value -> wprog)
}.

(** The default write function of a primitive atom. *)
Definition defaultWrite (config : atomId) (arg : value) : wprog :=
  if isFunction arg
  then WGet config (fun cur => WSet config (call arg cur) WRet)
  else WSet config arg WRet.

(** [atom (read, write)], creating the object of identity [config].  The first
    argument is a read function ([typeof read === 'function'], [inl]) or an
    initial value ([inr]). *)
Definition atom (config : atomId) (read : rprog + value)
    (write : option (value -> wprog)) : Atom :=
  match read with
  | inl r => mkAtom undefined r write
  | inr v =>
      mkAtom v (RGet config RRet)
        (Some (match write with Some w => w | None => defaultWrite config end))
  end.

(** What is observable from outside, in the order it happens.  The trace is
    ghost state: no definition below reads it. *)
Inductive Event : Type :=
| EvRead (a : atomId)                 (* [atom.read (get)] is called *)
| EvGet (a b : atomId)                (* the read function of [a] calls [get (b)] *)
| EvNotify (a : atomId)               (* [notify (a)] is entered *)
| EvListener (a : atomId) (l : listenerId). (* [l ()] from the listeners of [a] *)

#[export] Instance Event_eq_dec : EqDecision Event.
Proof. solve_decision. Defined.

(** The value of [atomStateMap] at an atom. *)
Record AtomState : Type := mkAtomState {
  value_ : value;
  listeners : list listenerId;
  dependents : list atomId
}.

(** [atomStateMap], the state [useState] keeps for each mounted component,
    and the trace. *)
Record Store : Type := mkStore {
  states : gmap atomId AtomState;
  rendered : gmap listenerId value;
  trace : list Event
}.

Definition emptyStore : Store := mkStore ∅ ∅ [].

(** [Set.prototype.add]: insertion order, no repeats. *)
Definition setAdd {A} `{EqDecision A} (x : A) (s : list A) : list A :=
  if decide (x ∈ s) then s else s ++ [x].

(** [Set.prototype.delete]. *)
Definition setDelete {A} `{EqDecision A} (x : A) (s : list A) : list A :=
  filter (fun y => y <> x) s.

(** ** Computations on the store

    A call either returns, with the store it leaves, or fails, with the store
    as it was when it failed.  [OutOfFuel] stands for a recursion that went
    deeper than the fuel given; [NotAFunction a] is the [TypeError] of calling
    [atom.write] on an atom [a] whose [write] is [undefined]. *)
Inductive failure : Type :=
| OutOfFuel
| NotAFunction (a : atomId).

Inductive outcome (A : Type) : Type :=
| Ok (x : A) (st : Store)
| Fail (e : failure) (st : Store).
Arguments Ok {A} x st.
Arguments Fail {A} e st.

Definition M (A : Type) : Type := Store -> outcome A.

Definition ret {A} (x : A) : M A := fun st => Ok x st.

Definition bind {A B} (m : M A) (k : A -> M B) : M B :=
  fun st => match m st with
            | Ok x st' => k x st'
            | Fail e st' => Fail e st'
            end.

Definition throw {A} (e : failure) : M A := fun st => Fail e st.

Definition finalStore {A} (o : outcome A) : Store :=
  match o with Ok _ st => st | Fail _ st => st end.

End Programs.

Arguments Ok {_ _} x st.
Arguments Fail {_ _} e st.

Declare Scope store_scope.
Delimit Scope store_scope with store.
Notation "x <- m ;; k" := (bind m (fun x => k))
  (at level 100, m at next level, right associativity) : store_scope.
Notation "m ;; k" := (bind m (fun _ => k))
  (at level 100, right associativity) : store_scope.
Open Scope store_scope.

Section Engine.
Context `{JsValue}.

(** The atoms of the program: the object behind each identity. *)
Variable def : atomId -> Atom.

(** The record [getAtomState] creates for an atom it has not seen. *)
Definition freshState (a : atomId) : AtomState :=
  mkAtomState (init (def a)) [] [].

(** The record of [a] as [atomStateMap] holds it, or as [getAtomState] would
    create it. *)
Definition stateOf (a : atomId) (st : Store) : AtomState :=
  match states st !! a with
  | Some s => s
  | None => freshState a
  end.

Definition updState (a : atomId) (f : AtomState -> AtomState) (st : Store) : Store :=
  mkStore (<[a := f (stateOf a st)]> (states st)) (rendered st) (trace st).

(** [getAtomState (atom)]: the record is created on first use.  The object it
    returns is shared with the map, so the callers below read and write its
    fields through the store, at the key [a]. *)
Definition getAtomState (a : atomId) : M unit :=
  fun st => Ok tt (updState a (fun s => s) st).

Definition emit (e : Event) : M unit :=
  fun st => Ok tt (mkStore (states st) (rendered st) (trace st ++ [e])).

(** [atomState.value] *)
Definition getValue (a : atomId) : M value :=
  fun st => Ok (value_ (stateOf a st)) st.

(** [atomState.value = v] *)
Definition setValue (a : atomId) (v : value) : M unit :=
  fun st => Ok tt (updState a (fun s => mkAtomState v (listeners s) (dependents s)) st).

(** [aState.dependents.add (d)] *)
Definition addDependent (a d : atomId) : M unit :=
  fun st => Ok tt (updState a (fun s =>
    mkAtomState (value_ s) (listeners s) (setAdd d (dependents s))) st).

(** [atomState.listeners.add (l)] *)
Definition addListener (a : atomId) (l : listenerId) : M unit :=
  fun st => Ok tt (updState a (fun s =>
    mkAtomState (value_ s) (setAdd l (listeners s)) (dependents s)) st).

(** [atomState.listeners.delete (l)] *)
Definition deleteListener (a : atomId) (l : listenerId) : M unit :=
  fun st => Ok tt (updState a (fun s =>
    mkAtomState (value_ s) (setDelete l (listeners s)) (dependents s)) st).

(** The state of the component that registered [l]: [useState ()] starts at
    [undefined]. *)
Definition componentState (l : listenerId) (st : Store) : value :=
  default undefined (rendered st !! l).

(** The [setValue] that [useState] returns: a function is an updater, called
    with the state the component has; anything else is the next state. *)
Definition setState (v prev : value) : value :=
  if isFunction v then call v prev else v.

(** [setValue (v)] of the component that registered [l]. *)
Definition setRendered (l : listenerId) (v : value) : M unit :=
  fun st => Ok tt (mkStore (states st)
                     (<[l := setState v (componentState l st)]> (rendered st))
                     (trace st)).

(** ** readAtom *)

(** The [get] handed to the read function of [atom]; [readA] is [readAtom]. *)
Definition trackedGet (readA : atomId -> M value) (atom a : atomId) : M value :=
  emit (EvGet atom a);;
  if decide (a = atom) then getValue atom
  else
    getAtomState a;;
    addDependent a atom;;    (* XXX add only *)
    readA a.                 (* XXX no caching *)

Fixpoint runRead (get : atomId -> M value) (p : rprog) : M value :=
  match p with
  | RRet v => ret v
  | RGet a k => v <- get a;; runRead get (k v)
  end.

Fixpoint readAtom (fuel : nat) (atom : atomId) : M value :=
  match fuel with
  | 0 => throw OutOfFuel
  | S fuel' =>
      getAtomState atom;;
      emit (EvRead atom);;
      v <- runRead (trackedGet (readAtom fuel') atom) (read (def atom));;
      setValue atom v;;
      ret v
  end.

(** ** notify *)

(** The callback of [useAtom]: [() => setValue (readAtom (atom))]. *)
Definition callback (fuel : nat) (atom : atomId) (l : listenerId) : M unit :=
  v <- readAtom fuel atom;;
  setRendered l v.

(** [atomState.listeners.forEach ((l) => l ())], from position [i].
    [forEach] walks the live set, so the listeners are looked up at each
    step. *)
Fixpoint forEachListener (fuel : nat) (atom : atomId) (i : nat) : M unit :=
  match fuel with
  | 0 => throw OutOfFuel
  | S fuel' => fun st =>
      match listeners (stateOf atom st) !! i with
      | None => Ok tt st
      | Some l =>
          (emit (EvListener atom l);;
           callback fuel' atom l;;
           forEachListener fuel' atom (S i)) st
      end
  end.

Fixpoint notify (fuel : nat) (atom : atomId) : M unit :=
  match fuel with
  | 0 => throw OutOfFuel
  | S fuel' =>
      getAtomState atom;;
      emit (EvNotify atom);;
      forEachDependent fuel' atom 0;;
      forEachListener fuel' atom 0
  end
with forEachDependent (fuel : nat) (atom : atomId) (i : nat) : M unit :=
  (* [atomState.dependents.forEach ((d) => { if (d !== atom) notify (d) })],
     from position [i] of the live set *)
  match fuel with
  | 0 => throw OutOfFuel
  | S fuel' => fun st =>
      match dependents (stateOf atom st) !! i with
      | None => Ok tt st
      | Some d =>
          ((if decide (d = atom) then ret tt else notify fuel' d);;
           forEachDependent fuel' atom (S i)) st
      end
  end.

(** ** writeAtom *)

(** The [get] handed to a write function: not tracked. *)
Definition untrackedGet (a : atomId) : M value :=
  getAtomState a;;
  getValue a.

(** The [set] handed to the write function of [atom]; [writeA] is
    [writeAtom]. *)
Definition setFrom (fuel : nat) (writeA : atomId -> value -> M unit)
    (atom a : atomId) (v : value) : M unit :=
  if decide (a = atom) then
    setValue atom v;;
    notify fuel atom
  else writeA a v.

Fixpoint runWrite (set : atomId -> value -> M unit) (p : wprog) : M unit :=
  match p with
  | WRet => ret tt
  | WGet a k => v <- untrackedGet a;; runWrite set (k v)
  | WSet a v k => set a v;; runWrite set k
  end.

Fixpoint writeAtom (fuel : nat) (atom : atomId) (v : value) : M unit :=
  match fuel with
  | 0 => throw OutOfFuel
  | S fuel' =>
      getAtomState atom;;
      match write (def atom) with
      | None => throw (NotAFunction atom)
      | Some w => runWrite (setFrom fuel' (writeAtom fuel') atom) (w v)
      end
  end.

(** ** useAtom (the hook of the guide) *)

(** The effect of [useAtom (atom)] in the component [l]: register the callback
    and call it once. *)
Definition mount (fuel : nat) (atom : atomId) (l : listenerId) : M unit :=
  getAtomState atom;;
  addListener atom l;;
  callback fuel atom l.

(** The cleanup of that effect. *)
Definition unmount (atom : atomId) (l : listenerId) : M unit :=
  deleteListener atom l.

(** [setAtom (nextValue)] *)
Definition setAtom (fuel : nat) (atom : atomId) (nextValue : value) : M unit :=
  writeAtom fuel atom nextValue.

(** ** Reading the store *)

Definition valueOf (a : atomId) (st : Store) : value := value_ (stateOf a st).
Definition dependentsOf (a : atomId) (st : Store) : list atomId :=
  dependents (stateOf a st).
Definition listenersOf (a : atomId) (st : Store) : list listenerId :=
  listeners (stateOf a st).

(** The events added to the trace between two stores. *)
Definition newEvents (st st' : Store) : list Event :=
  drop (length (trace st)) (trace st').

(** How often [atom.read] was called for [a]. *)
Definition countReads (a : atomId) (t : list Event) : nat :=
  length (filter (fun e => e = EvRead a) t).

(** How often the listener [l] of [a] was called by [notify]. *)
Definition countListener (a : atomId) (l : listenerId) (t : list Event) : nat :=
  length (filter (fun e => e = EvListener a l) t).

(** How often [notify] was entered for [a]. *)
Definition countNotify (a : atomId) (t : list Event) : nat :=
  length (filter (fun e => e = EvNotify a) t).

(** The atoms the read function of [a] passed to [get]. *)
Definition getsOf (a : atomId) (t : list Event) : list atomId :=
  omap (fun e => match e with
                 | EvGet x b => if decide (x = a) then Some b else None
                 | _ => None
                 end) t.

(** The value a write of the primitive atom [p] with the update [u] stores:
    a function is applied to the current value, anything else is the next
    value. *)
Definition nextValue (p : atomId) (u : value) (st : Store) : value :=
  if isFunction u then call u (valueOf p st) else u.

Definition succeeded {A} (o : outcome A) : bool :=
  match o with Ok _ _ => true | Fail _ _ => false end.

Definition isOutOfFuel {A} (o : outcome A) : Prop :=
  match o with Fail OutOfFuel _ => True | _ => False end.

(** A call that does not return however much fuel it is given: the recursion
    is unbounded. *)
Definition neverReturns {A} (run : nat -> M A) (st : Store) : Prop :=
  forall fuel, isOutOfFuel (run fuel st).

(** ** Shapes of atoms and of programs *)

(** The read function of a primitive atom, [(get) => get (config)]. *)
Definition passthrough (a : atomId) : Prop := read (def a) = RGet a RRet.

(** A read function that never passes [a] to [get]. *)
Inductive noSelfGet (a : atomId) : rprog -> Prop :=
| noSelfGet_ret v : noSelfGet a (RRet v)
| noSelfGet_get b k :
    b <> a -> (forall v, noSelfGet a (k v)) -> noSelfGet a (RGet b k).

(** [a] is a primitive atom, or a derived one that does not read the value
    stored for itself. *)
Definition selfFree (a : atomId) : Prop :=
  passthrough a \/ noSelfGet a (read (def a)).

(** Whatever the values it gets, the read function [p] of [x] comes to pass
    another atom of the set [cyc] to [get]. *)
Inductive getsInto (cyc : atomId -> Prop) (x : atomId) : rprog -> Prop :=
| getsInto_here y k : y <> x -> cyc y -> getsInto cyc x (RGet y k)
| getsInto_later y k : (forall v, getsInto cyc x (k v)) -> getsInto cyc x (RGet y k).

(** Every atom of [cyc] reads another atom of [cyc]: following these [get]s
    from an atom of [cyc] never leaves [cyc], and among finitely many atoms
    it comes back to one that is under evaluation. *)
Definition cyclic (cyc : atomId -> Prop) : Prop :=
  forall x, cyc x -> getsInto cyc x (read (def x)).

(** A write function body [set (p, v1); ...; set (p, vn)]. *)
Fixpoint setsOf (p : atomId) (vs : list value) : wprog :=
  match vs with
  | [] => WRet
  | v :: vs' => WSet p v (setsOf p vs')
  end.

(** The trace of one [notify (p)] on a primitive atom [p] without dependents
    whose listeners are [ls]: each listener is called, and reads [p]. *)
Definition listenerEvents (p : atomId) (ls : list listenerId) : list Event :=
  concat (map (fun l => [EvListener p l; EvRead p; EvGet p p]) ls).

Definition passEvents (p : atomId) (ls : list listenerId) : list Event :=
  EvNotify p :: listenerEvents p ls.

(** ** Relations between the stores before and after a call *)

(** [m] leaves the store related by [R] to the one it started from, whether
    it returns or fails. *)
Definition preserves (R : Store -> Store -> Prop) {A} (m : M A) : Prop :=
  forall st, R st (finalStore (m st)).

(** [m'] does what [m] does wherever [m] has fuel enough. *)
Definition refines {A} (m m' : M A) : Prop :=
  forall st, ~ isOutOfFuel (m st) -> m' st = m st.

(** [m] fails in no other way than by running out of fuel. *)
Definition onlyOutOfFuel {A} (m : M A) : Prop :=
  forall st e st', m st = Fail e st' -> e = OutOfFuel.

(** The trace only grows. *)
Definition traceGrows (st st' : Store) : Prop :=
  exists t, trace st' = trace st ++ t.

(** The dependents after are the dependents before and, for each [get (x)]
    made in between by another atom [y], the edge from [x] to [y]. *)
Definition edgesGrow (st st' : Store) : Prop :=
  exists t, trace st' = trace st ++ t /\
    forall x y, y ∈ dependentsOf x st' <->
                y ∈ dependentsOf x st \/ (EvGet y x ∈ t /\ y <> x).

(** The value stored for [x] is the same. *)
Definition sameValue (x : atomId) (st st' : Store) : Prop :=
  valueOf x st' = valueOf x st.

(** The listeners and the dependents of [x] are the same. *)
Definition sameSets (x : atomId) (st st' : Store) : Prop :=
  listenersOf x st' = listenersOf x st /\ dependentsOf x st' = dependentsOf x st.

(** Two stores hold the same values for the primitive atoms. *)
Definition agree (st st' : Store) : Prop :=
  forall x, passthrough x -> valueOf x st = valueOf x st'.

(** [m] run from two stores that agree returns the same value, in stores
    that agree. *)
Definition simulates {A} (m : M A) : Prop :=
  forall st st', agree st st' ->
    forall v st1, m st = Ok v st1 ->
      exists st1', m st' = Ok v st1' /\ agree st1 st1'.

(** ** Further shapes and relations *)

(** An event of the notification side: a [notify] entered or a listener
    called. *)
Definition isNotification (e : Event) : bool :=
  match e with
  | EvNotify _ | EvListener _ _ => true
  | EvRead _ | EvGet _ _ => false
  end.

(** Nothing was notified and nothing rendered between [st] and [st']: the
    components' state and every set of listeners are the same, and the trace
    grew by reads and gets only. *)
Definition quiet (st st' : Store) : Prop :=
  rendered st' = rendered st /\
  (forall x, listenersOf x st' = listenersOf x st) /\
  exists t, trace st' = trace st ++ t /\ Forall (fun e => isNotification e = false) t.

(** [d] is derived from [p] alone: its read function is
    [(get) => f (get (p))]. *)
Definition derivedFrom (d p : atomId) (f : value -> value) : Prop :=
  d <> p /\ read (def d) = RGet p (fun x => RRet (f x)).

(** The sets of dependents are extended at their end only, so a dependent
    keeps its position. *)
Definition dependentsExtended (st st' : Store) : Prop :=
  forall x, dependentsOf x st `prefix_of` dependentsOf x st'.

(** No cell is among its own dependents. *)
Definition noSelfDependent (st : Store) : Prop :=
  forall a, a ∉ dependentsOf a st.

(** From every cell of [cyc], a dependent edge leads to another cell of
    [cyc]. *)
Definition dependentsCycle (cyc : atomId -> Prop) (st : Store) : Prop :=
  forall x, cyc x ->
    exists i y, dependentsOf x st !! i = Some y /\ y <> x /\ cyc y.

(** Every atom has the listeners it had. *)
Definition sameListeners (st st' : Store) : Prop :=
  forall x, listenersOf x st' = listenersOf x st.

(** No component is subscribed to any atom. *)
Definition noListeners (st : Store) : Prop :=
  forall x, listenersOf x st = [].

(** With no component subscribed, nothing subscribes, no dependent edge is
    added and nothing is rendered between [st] and [st']. *)
Definition graphUntouched (st st' : Store) : Prop :=
  noListeners st ->
  noListeners st' /\
  (forall x, dependentsOf x st' = dependentsOf x st) /\
  rendered st' = rendered st.

(** The events of the listeners [ls] of an atom [d] derived from [p], each
    called once: [d] is read again, and [p] with it. *)
Definition derivedListenerEvents (d p : atomId) (ls : list listenerId) : list Event :=
  concat (map (fun l => [EvListener d l; EvRead d; EvGet d p; EvRead p; EvGet p p]) ls).

End Engine.

End Core.

(** * The first version of the guide

    Atoms hold a value and nothing is derived: [atom (initialValue)] is
    [{ init: initialValue }], the state of an atom is its value and its
    listeners, and [setAtom] stores the next value and calls every listener.
    Nothing recurses, so every operation returns. *)
Module CoreV1.

Definition atomId := nat.
Definition listenerId := nat.

Section First.
Context `{JsValue}.

(** The config object of [atom (initialValue)]. *)
Record Atom : Type := mkAtom { init : value }.

Definition atom (initialValue : value) : Atom := mkAtom initialValue.

Record AtomState : Type := mkAtomState {
  value_ : value;
  listeners : list listenerId
}.

(** [atomStateMap], and the state [useState] keeps for each component. *)
Record Store : Type := mkStore {
  states : gmap atomId AtomState;
  rendered : gmap listenerId value
}.

Definition emptyStore : Store := mkStore ∅ ∅.

Variable def : atomId -> Atom.

Definition stateOf (a : atomId) (st : Store) : AtomState :=
  match states st !! a with
  | Some s => s
  | None => mkAtomState (init (def a)) []
  end.

Definition valueOf (a : atomId) (st : Store) : value := value_ (stateOf a st).
Definition listenersOf (a : atomId) (st : Store) : list listenerId :=
  listeners (stateOf a st).

(** [getAtomState (atom)] *)
Definition getAtomState (a : atomId) (st : Store) : Store :=
  mkStore (<[a := stateOf a st]> (states st)) (rendered st).

(** The state of the component [l].  A component whose callback exists has
    rendered, so it has one. *)
Definition componentState (l : listenerId) (st : Store) : value :=
  default undefined (rendered st !! l).

(** What [useState (initial)] starts from: a function is an initialiser,
    called without an argument. *)
Definition initialState (initial : value) : value :=
  if isFunction initial then call initial undefined else initial.

(** The render of [useAtom (atom)] in the component [l]:
    [useState (atomState.value)] takes the value on the first render only;
    the result is the value shown. *)
Definition render (a : atomId) (l : listenerId) (st : Store) : value * Store :=
  let st1 := getAtomState a st in
  match rendered st1 !! l with
  | Some v => (v, st1)
  | None =>
      (initialState (valueOf a st1),
       mkStore (states st1) (<[l := initialState (valueOf a st1)]> (rendered st1)))
  end.

(** The callback [() => setValue (atomState.value)] of the component [l]:
    [setValue] takes a function as an updater of the state. *)
Definition callback (a : atomId) (l : listenerId) (st : Store) : Store :=
  mkStore (states st)
    (<[l := Core.setState (valueOf a st) (componentState l st)]> (rendered st)).

(** The effect: [atomState.listeners.add (callback); callback ()]. *)
Definition effect (a : atomId) (l : listenerId) (st : Store) : Store :=
  callback a l
    (mkStore
       (<[a := mkAtomState (valueOf a st) (Core.setAdd l (listenersOf a st))]> (states st))
       (rendered st)).

(** The cleanup: [atomState.listeners.delete (callback)]. *)
Definition cleanup (a : atomId) (l : listenerId) (st : Store) : Store :=
  mkStore
    (<[a := mkAtomState (valueOf a st) (Core.setDelete l (listenersOf a st))]> (states st))
    (rendered st).

(** [setAtom (nextValue)]: [atomState.value = nextValue], then
    [atomState.listeners.forEach ((l) => l ())].  A callback touches the state
    of its component only, so the walk is over the listeners as they are. *)
Definition setAtom (a : atomId) (nextValue : value) (st : Store) : Store :=
  let st1 :=
    mkStore (<[a := mkAtomState nextValue (listenersOf a st)]> (states st))
      (rendered st) in
  foldl (fun s l => callback a l s) st1 (listenersOf a st1).

End First.

End CoreV1.

(** * The [useAtom] hook of src/core/useAtom.ts *)
Module Hook.

Section UseAtom.
Context `{JsValue}.

(** [Scope], the [Update] a writable atom accepts, the type of a write
    function, and the two kinds of object the store keeps in an atom state
    and that the hook throws: an [Error] and a [Promise]. *)
Variables (Scope Update WriteFn JsError Promise : Type).

(** The atom object as the hook looks at it: its identity, its [write]
    property ([None] when absent or [undefined]) and its own ['scope']
    property ([None] when the object has no such key; the key may hold
    [undefined], the inner [None]). *)
Record Atom : Type := mkAtom {
  key : nat;
  write : option WriteFn;
  scope : option (option Scope)
}.

(** The atom state [store[READ_ATOM]] returns.  [e], [p] and [w] hold objects,
    which are truthy: [None] is an absent or [undefined] field.  [v] is [None]
    when the state has no ['v'] key. *)
Record AtomState : Type := mkAtomState {
  e : option JsError;
  p : option Promise;
  w : option Promise;
  v : option value
}.

(** How a call of the hook's functions ends. *)
Inductive completion (A : Type) : Type :=
| Return (x : A)
| ThrowError (err : JsError)          (* [throw atomState.e], or an error of the store *)
| ThrowPromise (pr : Promise)         (* [throw atomState.p], [throw atomState.w] *)
| ThrowNew (message : string).        (* [throw new Error (message)] *)
Arguments Return {A} x.
Arguments ThrowError {A} err.
Arguments ThrowPromise {A} pr.
Arguments ThrowNew {A} message.

(** What the hook imports: the store found in a scope's context, and the
    operations of a store.  A write of the store returns or throws an error
    of its own. *)
Variables (StoreT Context Rest : Type).
Variable getScopeContext : option Scope -> Context.
Variable useContext : Context -> StoreT * Rest.
Variable READ_ATOM : StoreT -> Atom -> AtomState.
Variable WRITE_ATOM : StoreT -> Atom -> Update -> option JsError * StoreT.

(** [isWritable]: [!!atom.write] *)
Definition isWritable (atom : Atom) : bool :=
  match write atom with Some _ => true | None => false end.

Definition deprecation : string :=
  "atom.scope is deprecated. Please do useAtom(atom, scope) instead.".

(** The first statement of [useAtom]: the scope it goes on with, and what it
    printed with [console.warn]. *)
Definition resolveScope (atom : Atom) (scopeArg : option Scope)
    : option Scope * list string :=
  match scope atom with
  | Some s => (s, [deprecation])
  | None => (scopeArg, [])
  end.

(** [const [store] = useContext (getScopeContext (scope))] *)
Definition storeOf (atom : Atom) (scopeArg : option Scope) : StoreT :=
  fst (useContext (getScopeContext (fst (resolveScope atom scopeArg)))).

(** [getAtomValue] *)
Definition getAtomValue (store : StoreT) (atom : Atom) : completion value :=
  let atomState := READ_ATOM store atom in
  match e atomState with
  | Some err => ThrowError err                 (* read error *)
  | None =>
    match p atomState with
    | Some pr => ThrowPromise pr               (* read promise *)
    | None =>
      match w atomState with
      | Some pr => ThrowPromise pr             (* write promise *)
      | None =>
        match v atomState with
        | Some x => Return x
        | None => ThrowNew "no atom value"
        end
      end
    end
  end.

(** [setAtom]: the store after the write, when the atom is writable. *)
Definition setAtom (store : StoreT) (atom : Atom) (update : Update)
    : completion StoreT :=
  if isWritable atom then
    match WRITE_ATOM store atom update with
    | (None, store') => Return store'
    | (Some err, _) => ThrowError err
    end
  else ThrowNew "not writable atom".

(** [subscribe], handed to [useSyncExternalStore], and the effect run after
    each render.  Neither takes part in the pair [useAtom] returns. *)
Variables (Callback Unsubscribe : Type).
Variable SUBSCRIBE_ATOM : StoreT -> Atom -> Callback -> Unsubscribe.
Variable FLUSH_PENDING : StoreT -> StoreT.

Definition subscribe (store : StoreT) (atom : Atom) (callback : Callback)
    : Unsubscribe :=
  SUBSCRIBE_ATOM store atom callback.

Definition flushEffect (store : StoreT) : StoreT := FLUSH_PENDING store.

(** [useAtom (atom, scope)]: the value [useSyncExternalStore] reads with
    [getAtomValue], and [setAtom]. *)
Definition useAtom (atom : Atom) (scopeArg : option Scope)
    : completion value * (Update -> completion StoreT) :=
  let store := storeOf atom scopeArg in
  (getAtomValue store atom, setAtom store atom).

End UseAtom.

Arguments Return {_ _ _} x.
Arguments ThrowError {_ _ _} err.
Arguments ThrowPromise {_ _ _} pr.
Arguments ThrowNew {_ _ _} message.
Arguments mkAtom {Scope WriteFn} key write scope.
Arguments key {Scope WriteFn} a.
Arguments write {Scope WriteFn} a.
Arguments scope {Scope WriteFn} a.
Arguments mkAtomState {_ JsError Promise} e p w v.
Arguments e {_ JsError Promise} a.
Arguments p {_ JsError Promise} a.
Arguments w {_ JsError Promise} a.
Arguments v {_ JsError Promise} a.
Arguments isWritable {Scope WriteFn} atom.
Arguments resolveScope {Scope WriteFn} atom scopeArg.
Arguments storeOf {Scope WriteFn StoreT Context Rest}
  getScopeContext useContext atom scopeArg.
Arguments getAtomValue {_ Scope WriteFn JsError Promise StoreT}
  READ_ATOM store atom.
Arguments setAtom {Scope Update WriteFn JsError Promise StoreT}
  WRITE_ATOM store atom update.
Arguments useAtom {_ Scope Update WriteFn JsError Promise StoreT Context Rest}
  getScopeContext useContext READ_ATOM WRITE_ATOM atom scopeArg.
Arguments subscribe {Scope WriteFn StoreT Callback Unsubscribe}
  SUBSCRIBE_ATOM store atom callback.
Arguments flushEffect {StoreT} FLUSH_PENDING store.

End Hook.

(** * Settlement of asynchronous values *)
Module Async.

Section Tracker.
Context `{JsValue}.
Variable JsError : Type.

(** Modelled from the spec: the status of a cell record, one of settled,
    pending-read, pending-write and errored.  The store that keeps these
    records is imported by the hook from ./store. *)
Inductive status : Type := Settled | PendingRead | PendingWrite | Errored.

(** Modelled from the spec: how an in-flight computation ends, with the
    resolved value or with the error. *)
Inductive settlement : Type :=
| Resolved (v : value)
| Rejected (err : JsError).

(** Modelled from the spec: the part of a cell record the async resolution
    tracker works on: the last computed value (absent if never computed), the
    stored error, the status, and the generation counter of the record. *)
Record CellRecord : Type := mkCellRecord {
  cellValue : option value;
  cellError : option JsError;
  cellStatus : status;
  generation : nat
}.

(** Modelled from the spec: a new asynchronous evaluation of the cell.  The
    generation counter is incremented, the status becomes pending-read, and
    the continuation attached to the computation keeps the generation it was
    started in. *)
Definition beginEvaluation (r : CellRecord) : nat * CellRecord :=
  let g := S (generation r) in
  (g, mkCellRecord (cellValue r) (cellError r) PendingRead g).

(** Modelled from the spec: the continuation of the computation started in
    generation [g].  The generation is checked before commit: a superseded
    computation is ignored; otherwise the resolved value is stored and the
    status becomes settled, or the error is stored and the status becomes
    errored. *)
Definition settle (g : nat) (s : settlement) (r : CellRecord) : CellRecord :=
  if decide (g = generation r) then
    match s with
    | Resolved v => mkCellRecord (Some v) None Settled (generation r)
    | Rejected err => mkCellRecord (cellValue r) (Some err) Errored (generation r)
    end
  else r.

(** Modelled from the spec: two asynchronous recomputations of a cell issued
    in sequence before either settles; the second then settles with [s2] and
    the first with [s1] after it. *)
Definition firstSettlesLast (r : CellRecord) (s1 s2 : settlement) : CellRecord :=
  let '(g1, r1) := beginEvaluation r in
  let '(g2, r2) := beginEvaluation r1 in
  settle g1 s1 (settle g2 s2 r2).

(** Modelled from the spec: the same two recomputations, settling in the
    order they were issued. *)
Definition firstSettlesFirst (r : CellRecord) (s1 s2 : settlement) : CellRecord :=
  let '(g1, r1) := beginEvaluation r in
  let '(g2, r2) := beginEvaluation r1 in
  settle g2 s2 (settle g1 s1 r2).

End Tracker.

Arguments Resolved {_ JsError} v.
Arguments Rejected {_ JsError} err.
Arguments mkCellRecord {_ JsError} cellValue cellError cellStatus generation.
Arguments cellValue {_ JsError} c.
Arguments cellError {_ JsError} c.
Arguments cellStatus {_ JsError} c.
Arguments generation {_ JsError} c.
Arguments beginEvaluation {_ JsError} r.
Arguments settle {_ JsError} g s r.
Arguments firstSettlesLast {_ JsError} r s1 s2.
Arguments firstSettlesFirst {_ JsError} r s1 s2.

End Async.

(** The diamond [A -> {B, C} -> D]: [A] is primitive, [B] and [C] are computed
    from [A], and [D] from [B] and [C]. *)
Module Diamond.
Import Core.

Definition A : atomId := 0.
Definition B : atomId := 1.
Definition C : atomId := 2.
Definition D : atomId := 3.

Section Graph.
Context `{JsValue}.
Variables (initA : value) (fB fC : value -> value) (fD : value -> value -> value).

Definition graph (a : atomId) : Atom :=
  match a with
  | 0 => atom A (inr initA) None
  | 1 => atom B (inl (RGet A (fun x => RRet (fB x)))) None
  | 2 => atom C (inl (RGet A (fun x => RRet (fC x)))) None
  | _ => atom D (inl (RGet B (fun b => RGet C (fun c => RRet (fD b c))))) None
  end.

(** The events of one call of the listener [l] of [D]: [D] is read again, and
    with it [B], [C] and [A]. *)
Definition rereadD (l : listenerId) : list Event :=
  [EvListener D l; EvRead D;
   EvGet D B; EvRead B; EvGet B A; EvRead A; EvGet A A;
   EvGet D C; EvRead C; EvGet C A; EvRead A; EvGet A A].

(** The events of [notify (A)] once [D] is mounted: [D] is reached through
    [B] and again through [C]. *)
Definition diamondPass (l : listenerId) : list Event :=
  [EvNotify A; EvNotify B; EvNotify D] ++ rereadD l ++
  [EvNotify C; EvNotify D] ++ rereadD l.

End Graph.

End Diamond.

(** * Concrete programs

    Each program lists its atoms by identity; the identities past the last
    one listed are not used. *)
Module Scenarios.
Import Core.

(** A small universe of values: [undefined], the integers, the constant
    function [() => v], and
    [(x) => typeof x === 'number' ? f (x) : undefined]. *)
Inductive jsv : Type :=
| JUndefined
| JNum (n : Z)
| JConst (v : jsv)
| JNumFun (f : Z -> Z).

Definition jsIsFunction (x : jsv) : bool :=
  match x with
  | JConst _ | JNumFun _ => true
  | JUndefined | JNum _ => false
  end.

Definition jsCall (f x : jsv) : jsv :=
  match f with
  | JConst v => v
  | JNumFun g => match x with JNum n => JNum (g n) | _ => JUndefined end
  | _ => JUndefined
  end.

#[export] Instance jsv_values : JsValue :=
  {| value := jsv; undefined := JUndefined; isFunction := jsIsFunction; call := jsCall |}.

(** [f] on numbers, [undefined] elsewhere. *)
Definition onNum (f : Z -> Z) (x : jsv) : jsv :=
  match x with JNum n => JNum (f n) | _ => JUndefined end.

Definition onNum2 (f : Z -> Z -> Z) (x y : jsv) : jsv :=
  match x, y with JNum n, JNum m => JNum (f n m) | _, _ => JUndefined end.

(** [price = atom (10)], [doubled = atom ((get) => get (price) * 2)] *)
Definition price : atomId := 0.
Definition doubled : atomId := 1.
Definition shop (a : atomId) : Atom :=
  match a with
  | 0 => atom price (inr (JNum 10)) None
  | _ => atom doubled (inl (RGet price (fun x => RRet (onNum (Z.mul 2) x)))) None
  end.

(** A counter that reads the value stored for itself:
    [atom ((get) => (get (self) ?? 0) + 1)] *)
Definition ticker : atomId := 0.
Definition tick (x : jsv) : jsv :=
  match x with JNum n => JNum (n + 1) | _ => JNum 1 end.
Definition clock (a : atomId) : Atom :=
  atom ticker (inl (RGet ticker (fun x => RRet (tick x)))) None.

(** [chosen = atom ((get) => get (flag) ? get (left) : get (right))] *)
Definition flag : atomId := 0.
Definition left : atomId := 1.
Definition right : atomId := 2.
Definition chosen : atomId := 3.
Definition switch (a : atomId) : Atom :=
  match a with
  | 0 => atom flag (inr (JNum 1)) None
  | 1 => atom left (inr (JNum 10)) None
  | 2 => atom right (inr (JNum 20)) None
  | _ => atom chosen
           (inl (RGet flag (fun f =>
                   match f with
                   | JNum 0 | JUndefined => RGet right RRet
                   | _ => RGet left RRet
                   end))) None
  end.

(** [ping = atom ((get) => get (pong))], [pong = atom ((get) => get (ping))] *)
Definition ping : atomId := 0.
Definition pong : atomId := 1.
Definition loop (a : atomId) : Atom :=
  match a with
  | 0 => atom ping (inl (RGet pong RRet)) None
  | _ => atom pong (inl (RGet ping RRet)) None
  end.

(** [count = atom (0)] and
    [twice = atom (null, (get, set) => { set (count, 1); set (count, 2) })] *)
Definition count : atomId := 0.
Definition twice : atomId := 1.
Definition burst (a : atomId) : Atom :=
  match a with
  | 0 => atom count (inr (JNum 0)) None
  | _ => atom twice (inr JUndefined)
           (Some (fun _ => setsOf count [JNum 1; JNum 2]))
  end.

(** [(x) => x + 1] *)
Definition increment : jsv := JNumFun (fun n => (n + 1)%Z).

(** Two reads in a row. *)
Definition readTwice (def : atomId -> Atom) (fuel : nat) (a : atomId)
    : M (jsv * jsv) :=
  v1 <- readAtom def fuel a;;
  v2 <- readAtom def fuel a;;
  ret (v1, v2).

(** The store after one read of [doubled]. *)
Definition shopRead : Store := finalStore (readAtom shop 5 doubled emptyStore).

(** [chosen] is read, then [flag] is set to [0]. *)
Definition switchBefore : Store :=
  finalStore ((readAtom switch 5 chosen;; writeAtom switch 10 flag (JNum 0)) emptyStore).

(** [chosen] is read again. *)
Definition switchAfter : Store := finalStore (readAtom switch 5 chosen switchBefore).

(** The component [7] has mounted [useAtom (count)]. *)
Definition burstMounted : Store := finalStore (mount burst 5 count 7 emptyStore).

(** [twice] is then written. *)
Definition burstWritten : Store :=
  finalStore (writeAtom burst 10 twice JUndefined burstMounted).

(** The diamond [A = 1], [B = A + 1], [C = A * 2], [D = B + C]. *)
Definition diamond : atomId -> Atom :=
  Diamond.graph (JNum 1) (onNum (Z.add 1)) (onNum (Z.mul 2)) (onNum2 Z.add).

(** The component [7] has mounted [useAtom (D)]. *)
Definition diamondMounted : Store :=
  finalStore (mount diamond 20 Diamond.D 7 emptyStore).

(** [A] is then written. *)
Definition diamondWritten : Store :=
  finalStore (writeAtom diamond 20 Diamond.A (JNum 5) diamondMounted).

(** The atoms of the guide: [price = atom (10)],
    [doubled = atom ((get) => get (price) * 2)], the write-only
    [discount = atom (null, (get, set, args) => set (price, get (price) - args))],
    the read-write
    [halved = atom ((get) => get (price) * 2, (get, set, newPrice) => set (price, newPrice / 2))],
    and [broken = atom (null, (get, set) => { set (price, 1); set (doubled, 2) })],
    whose second [set] is on an atom that cannot be written. *)
Definition discount : atomId := 2.
Definition halved : atomId := 3.
Definition broken : atomId := 4.
Definition till (a : atomId) : Atom :=
  match a with
  | 0 => atom price (inr (JNum 10)) None
  | 1 => atom doubled (inl (RGet price (fun x => RRet (onNum (Z.mul 2) x)))) None
  | 2 => atom discount (inr JUndefined)
           (Some (fun args => WGet price (fun x => WSet price (onNum2 Z.sub x args) WRet)))
  | 3 => atom halved (inl (RGet price (fun x => RRet (onNum (Z.mul 2) x))))
           (Some (fun newPrice => WSet price (onNum (fun n => (n / 2)%Z) newPrice) WRet))
  | _ => atom broken (inr JUndefined)
           (Some (fun _ => WSet price (JNum 1) (WSet doubled (JNum 2) WRet)))
  end.

(** The component [7] has mounted [useAtom (doubled)]. *)
Definition shopMounted : Store := finalStore (mount shop 5 doubled 7 emptyStore).

(** The component [7] has mounted [useAtom (price)]. *)
Definition priceMounted : Store := finalStore (mount shop 5 price 7 emptyStore).

(** The store left by a read of [ping] that ran out of fuel. *)
Definition loopStuck : Store := finalStore (readAtom loop 5 ping emptyStore).

(** The component [7] has mounted [useAtom (doubled)], and the component [8]
    [useAtom (price)]. *)
Definition bothMounted : Store :=
  finalStore ((mount shop 5 doubled 7;; mount shop 5 price 8) emptyStore).

(** The component [7] has mounted [useAtom (price)] of the guide's atoms. *)
Definition tillMounted : Store := finalStore (mount till 5 price 7 emptyStore).

(** The component [7] has mounted [useAtom (halved)]. *)
Definition halvedMounted : Store := finalStore (mount till 5 halved 7 emptyStore).

(** [() => 5], and the store after [writeAtom (price, () => () => 5)]: the
    default write calls the update, so [price] holds the function
    [() => 5]. *)
Definition constFive : jsv := JConst (JNum 5).
Definition functionStored : Store :=
  finalStore (writeAtom shop 10 price (JConst constFive) emptyStore).

(** The counter of the first version: [countAtom = atom (0)]. *)
Definition counter (a : CoreV1.atomId) : CoreV1.Atom := CoreV1.atom (JNum 0).

(** The components [7] and [8] have rendered [useAtom (countAtom)] and run
    its effect. *)
Definition counterMounted : CoreV1.Store :=
  CoreV1.effect counter 0 8
    (snd (CoreV1.render counter 0 8
            (CoreV1.effect counter 0 7
               (snd (CoreV1.render counter 0 7 CoreV1.emptyStore))))).

End Scenarios.

(** * Facts about the core *)

Import Core.

Section MonadFacts.
Context `{JsValue}.

Lemma elem_of_setAdd {A} `{EqDecision A} (x y : A) s :
  y ∈ setAdd x s <-> y ∈ s \/ y = x.
Proof.
  unfold setAdd. case_decide.
  - split; [auto|]. intros [?| ->]; done.
  - rewrite elem_of_app, list_elem_of_singleton. tauto.
Qed.

Lemma elem_of_getsOf a b t : b ∈ getsOf a t <-> EvGet a b ∈ t.
Proof.
  unfold getsOf. rewrite list_elem_of_omap. split.
  - intros (e & Hin & He). destruct e; try discriminate.
    case_decide; simplify_eq. done.
  - intros Hin. exists (EvGet a b). split; [done|]. by rewrite decide_True.
Qed.

Lemma newEvents_app st st' t : trace st' = trace st ++ t -> newEvents st st' = t.
Proof. intros E. unfold newEvents. rewrite E. apply drop_app_length. Qed.

(** ** The monad *)

Lemma bind_Ok {A B} (m : M A) (k : A -> M B) st y st' :
  bind m k st = Ok y st' -> exists x st1, m st = Ok x st1 /\ k x st1 = Ok y st'.
Proof. unfold bind. destruct (m st); [eauto|discriminate]. Qed.

Lemma finalStore_bind {A B} (m : M A) (k : A -> M B) st :
  finalStore (bind m k st) =
  match m st with Ok x st1 => finalStore (k x st1) | Fail _ st1 => st1 end.
Proof. unfold bind. by destruct (m st). Qed.

Lemma isOutOfFuel_bind {A B} (m : M A) (k : A -> M B) st :
  isOutOfFuel (bind m k st) <->
  match m st with
  | Ok x st1 => isOutOfFuel (k x st1)
  | Fail e st1 => isOutOfFuel (Fail (A:=A) e st1)
  end.
Proof. unfold bind. destruct (m st) as [x st1|[|b] st1]; simpl; tauto. Qed.

(** ** More fuel changes nothing once there is enough *)

Lemma refines_refl {A} (m : M A) : refines m m.
Proof. by intros st _. Qed.

Lemma refines_bind {A B} (m m' : M A) (k k' : A -> M B) :
  refines m m' -> (forall x, refines (k x) (k' x)) -> refines (bind m k) (bind m' k').
Proof.
  intros Hm Hk st Hno. rewrite isOutOfFuel_bind in Hno.
  unfold bind. destruct (m st) as [x st1|e st1] eqn:E.
  - rewrite (Hm st) by (rewrite E; simpl; tauto). rewrite E. by apply Hk.
  - rewrite (Hm st) by (by rewrite E). by rewrite E.
Qed.

Lemma refines_runRead (g g' : atomId -> M value) p :
  (forall a, refines (g a) (g' a)) -> refines (runRead g p) (runRead g' p).
Proof.
  intros Hg. induction p as [v|a k IH]; simpl.
  - apply refines_refl.
  - apply refines_bind; [apply Hg | done].
Qed.

End MonadFacts.

Section CoreFacts.
Context `{JsValue} (def : atomId -> Atom).

(** ** The store *)

Lemma stateOf_updState x a f st :
  stateOf def x (updState def a f st) =
  if decide (x = a) then f (stateOf def a st) else stateOf def x st.
Proof.
  unfold stateOf at 1. unfold updState; simpl.
  destruct (decide (x = a)) as [->|Hne].
  - by rewrite lookup_insert_eq.
  - rewrite lookup_insert_ne by done. reflexivity.
Qed.

Lemma valueOf_updState x a f st :
  valueOf def x (updState def a f st) =
  if decide (x = a) then value_ (f (stateOf def a st)) else valueOf def x st.
Proof. unfold valueOf. rewrite stateOf_updState. by case_decide. Qed.

Lemma dependentsOf_updState x a f st :
  dependentsOf def x (updState def a f st) =
  if decide (x = a) then dependents (f (stateOf def a st)) else dependentsOf def x st.
Proof. unfold dependentsOf. rewrite stateOf_updState. by case_decide. Qed.

Lemma listenersOf_updState x a f st :
  listenersOf def x (updState def a f st) =
  if decide (x = a) then listeners (f (stateOf def a st)) else listenersOf def x st.
Proof. unfold listenersOf. rewrite stateOf_updState. by case_decide. Qed.

Lemma updState_id_idem a st :
  updState def a (fun s => s) (updState def a (fun s => s) st) =
  updState def a (fun s => s) st.
Proof.
  unfold updState at 1. rewrite stateOf_updState, decide_True by done.
  unfold updState; simpl. by rewrite insert_insert_eq.
Qed.

Lemma refines_trackedGet (r r' : atomId -> M value) atom a :
  (forall a, refines (r a) (r' a)) ->
  refines (trackedGet def r atom a) (trackedGet def r' atom a).
Proof.
  intros Hr. unfold trackedGet. apply refines_bind; [apply refines_refl|intros _].
  case_decide; [apply refines_refl|].
  do 2 (apply refines_bind; [apply refines_refl|intros _]). apply Hr.
Qed.

Lemma readAtom_refines f f' a :
  f <= f' -> refines (readAtom def f a) (readAtom def f' a).
Proof.
  revert f' a. induction f as [|f IH]; intros f' a Hle.
  - intros st Hno. by destruct Hno.
  - destruct f' as [|f']; [lia|]. simpl.
    do 2 (apply refines_bind; [apply refines_refl|intros _]).
    apply refines_bind; [|intros; apply refines_refl].
    apply refines_runRead. intros b. apply refines_trackedGet. intros c. apply IH. lia.
Qed.

Lemma callback_refines f f' a l :
  f <= f' -> refines (callback def f a l) (callback def f' a l).
Proof.
  intros. unfold callback.
  apply refines_bind; [by apply readAtom_refines|intros; apply refines_refl].
Qed.

Lemma forEachListener_refines f f' a i :
  f <= f' -> refines (forEachListener def f a i) (forEachListener def f' a i).
Proof.
  revert f' a i. induction f as [|f IH]; intros f' a i Hle.
  - intros st Hno. by destruct Hno.
  - destruct f' as [|f']; [lia|]. intros st. simpl.
    destruct (listeners (stateOf def a st) !! i) as [l|]; [|done].
    revert st. fold (refines (A:=unit)).
    apply refines_bind; [apply refines_refl|intros _].
    apply refines_bind; [apply callback_refines; lia|intros _].
    apply IH. lia.
Qed.

Lemma notify_forEachDependent_refines f :
  forall f', f <= f' ->
  (forall a, refines (notify def f a) (notify def f' a)) /\
  (forall a i, refines (forEachDependent def f a i) (forEachDependent def f' a i)).
Proof.
  induction f as [|f IH]; intros f' Hle.
  - split; intros; intros st Hno; by destruct Hno.
  - destruct f' as [|f']; [lia|]. destruct (IH f' ltac:(lia)) as [IHn IHd]. split.
    + intros a. simpl.
      do 2 (apply refines_bind; [apply refines_refl|intros _]).
      apply refines_bind; [apply IHd|intros _]. apply forEachListener_refines. lia.
    + intros a i st. simpl.
      destruct (dependents (stateOf def a st) !! i) as [d|]; [|done].
      revert st. fold (refines (A:=unit)).
      apply refines_bind; [|intros _; apply IHd].
      case_decide; [apply refines_refl|apply IHn].
Qed.

Lemma notify_refines f f' a : f <= f' -> refines (notify def f a) (notify def f' a).
Proof. intros Hle. by apply notify_forEachDependent_refines. Qed.

Lemma refines_runWrite (s s' : atomId -> value -> M unit) p :
  (forall a v, refines (s a v) (s' a v)) ->
  refines (runWrite def s p) (runWrite def s' p).
Proof.
  intros Hs. induction p as [|a k IH|a v k IH]; simpl.
  - apply refines_refl.
  - apply refines_bind; [apply refines_refl|done].
  - apply refines_bind; [apply Hs|done].
Qed.

Lemma writeAtom_refines f f' a v :
  f <= f' -> refines (writeAtom def f a v) (writeAtom def f' a v).
Proof.
  revert f' a v. induction f as [|f IH]; intros f' a v Hle.
  - intros st Hno. by destruct Hno.
  - destruct f' as [|f']; [lia|]. simpl.
    apply refines_bind; [apply refines_refl|intros _].
    destruct (write (def a)) as [w|]; [|apply refines_refl].
    apply refines_runWrite. intros b u. unfold setFrom. case_decide.
    + apply refines_bind; [apply refines_refl|intros _]. apply notify_refines. lia.
    + apply IH. lia.
Qed.

Lemma mount_refines f f' a l :
  f <= f' -> refines (mount def f a l) (mount def f' a l).
Proof.
  intros. unfold mount.
  do 2 (apply refines_bind; [apply refines_refl|intros _]). by apply callback_refines.
Qed.

(** ** Relations every call keeps *)

Section Preserve.
Variable R : Store -> Store -> Prop.
Hypothesis R_refl : forall st, R st st.
Hypothesis R_trans : forall st1 st2 st3, R st1 st2 -> R st2 st3 -> R st1 st3.

Lemma preserves_ret {A} (x : A) : preserves R (ret x).
Proof. intros st. apply R_refl. Qed.

Lemma preserves_throw {A} e : preserves R (throw (A:=A) e).
Proof. intros st. apply R_refl. Qed.

Lemma preserves_getValue a : preserves R (getValue def a).
Proof. intros st. apply R_refl. Qed.

Lemma preserves_bind {A B} (m : M A) (k : A -> M B) :
  preserves R m -> (forall x, preserves R (k x)) -> preserves R (bind m k).
Proof.
  intros Hm Hk st. rewrite finalStore_bind. specialize (Hm st).
  destruct (m st) as [x st1|e st1]; simpl in Hm; [|done].
  eapply R_trans; [done|apply Hk].
Qed.

Lemma preserves_runRead (g : atomId -> M value) p :
  (forall a, preserves R (g a)) -> preserves R (runRead g p).
Proof.
  intros Hg. induction p as [v|a k IH]; simpl.
  - apply preserves_ret.
  - by apply preserves_bind.
Qed.

Hypothesis R_getAtomState : forall a, preserves R (getAtomState def a).
Hypothesis R_setRendered : forall l v, preserves R (setRendered l v).
Hypothesis R_emitNotify : forall a, preserves R (emit (EvNotify a)).
Hypothesis R_emitListener : forall a l, preserves R (emit (EvListener a l)).

Lemma preserves_untrackedGet a : preserves R (untrackedGet def a).
Proof. apply preserves_bind; [done|intros; apply preserves_getValue]. Qed.

Lemma preserves_runWrite (s : atomId -> value -> M unit) p :
  (forall a v, preserves R (s a v)) -> preserves R (runWrite def s p).
Proof.
  intros Hs. induction p as [|a k IH|a v k IH]; simpl.
  - apply preserves_ret.
  - apply preserves_bind; [apply preserves_untrackedGet|done].
  - by apply preserves_bind.
Qed.

Section Notify.
Hypothesis R_readAtom : forall f a, preserves R (readAtom def f a).

Lemma preserves_callback f a l : preserves R (callback def f a l).
Proof. apply preserves_bind; [done|intros; done]. Qed.

Lemma preserves_forEachListener f : forall a i, preserves R (forEachListener def f a i).
Proof.
  induction f as [|f IH]; intros a i st; simpl; [apply R_refl|].
  destruct (listeners (stateOf def a st) !! i) as [l|]; [|apply R_refl].
  revert st. fold (preserves R (A:=unit)).
  apply preserves_bind; [done|intros _].
  apply preserves_bind; [apply preserves_callback|intros _]. apply IH.
Qed.

Lemma preserves_notify_forEachDependent f :
  (forall a, preserves R (notify def f a)) /\
  (forall a i, preserves R (forEachDependent def f a i)).
Proof.
  induction f as [|f [IHn IHd]]; (split; [intros a|intros a i]); simpl.
  - apply preserves_throw.
  - apply preserves_throw.
  - do 2 (apply preserves_bind; [done|intros _]).
    apply preserves_bind; [apply IHd|intros _; apply preserves_forEachListener].
  - intros st. destruct (dependents (stateOf def a st) !! i) as [d|]; [|apply R_refl].
    revert st. fold (preserves R (A:=unit)).
    apply preserves_bind; [|intros _; apply IHd].
    case_decide; [apply preserves_ret|apply IHn].
Qed.

Lemma preserves_notify f a : preserves R (notify def f a).
Proof. apply preserves_notify_forEachDependent. Qed.

Hypothesis R_setValue : forall a v, preserves R (setValue def a v).

Lemma preserves_writeAtom f : forall a v, preserves R (writeAtom def f a v).
Proof.
  induction f as [|f IH]; intros a v; simpl; [apply preserves_throw|].
  apply preserves_bind; [done|intros _].
  destruct (write (def a)) as [w|]; [|apply preserves_throw].
  apply preserves_runWrite. intros b u. unfold setFrom. case_decide; [|apply IH].
  apply preserves_bind; [done|intros _; apply preserves_notify].
Qed.
End Notify.

Hypothesis R_emitRead : forall a, preserves R (emit (EvRead a)).
Hypothesis R_setValue : forall a v, preserves R (setValue def a v).
Hypothesis R_trackedGet : forall r atom a,
  (forall b, preserves R (r b)) -> preserves R (trackedGet def r atom a).

Lemma preserves_readAtom f : forall a, preserves R (readAtom def f a).
Proof.
  induction f as [|f IH]; intros a; simpl; [apply preserves_throw|].
  do 2 (apply preserves_bind; [done|intros _]).
  apply preserves_bind.
  - apply preserves_runRead. intros b. by apply R_trackedGet.
  - intros v. apply preserves_bind; [done|intros; apply preserves_ret].
Qed.

End Preserve.

(** ** The dependents only grow, by the edges of the [get]s *)

Lemma edgesGrow_refl st : edgesGrow def st st.
Proof.
  exists []. split; [by rewrite app_nil_r|]. intros x y. split; [auto|].
  intros [?|[Hin _]]; [done|]. by apply elem_of_nil in Hin.
Qed.

Lemma edgesGrow_trans st1 st2 st3 :
  edgesGrow def st1 st2 -> edgesGrow def st2 st3 -> edgesGrow def st1 st3.
Proof.
  intros (t1 & E1 & H1) (t2 & E2 & H2). exists (t1 ++ t2). split.
  - by rewrite E2, E1, app_assoc.
  - intros x y. rewrite H2, H1, elem_of_app. tauto.
Qed.

Lemma edgesGrow_emit e st :
  (forall x y, e <> EvGet x y) -> edgesGrow def st (finalStore (emit e st)).
Proof.
  intros Hne. exists [e]. split; [done|]. intros x y. simpl.
  split; [auto|]. intros [?|[Hin _]]; [done|].
  apply list_elem_of_singleton in Hin. by destruct (Hne y x).
Qed.

Lemma edgesGrow_updState a f st :
  (forall s, dependents (f s) = dependents s) -> edgesGrow def st (updState def a f st).
Proof.
  intros Hf. exists []. split; [by rewrite app_nil_r|]. intros x y.
  rewrite dependentsOf_updState.
  assert ((if decide (x = a) then dependents (f (stateOf def a st))
           else dependentsOf def x st) = dependentsOf def x st) as ->.
  { case_decide; [subst; apply Hf|done]. }
  split; [auto|]. intros [?|[Hin _]]; [done|]. by apply elem_of_nil in Hin.
Qed.

Lemma edgesGrow_setRendered l v st : edgesGrow def st (finalStore (setRendered l v st)).
Proof.
  exists []. split; [by rewrite app_nil_r|]. intros x y.
  split; [auto|]. intros [?|[Hin _]]; [done|]. by apply elem_of_nil in Hin.
Qed.

Lemma edgesGrow_trackedGet r atom a :
  (forall b, preserves (edgesGrow def) (r b)) ->
  preserves (edgesGrow def) (trackedGet def r atom a).
Proof.
  intros Hr st. unfold trackedGet, bind at 1, emit. cbv beta iota.
  destruct (decide (a = atom)) as [->|Hne].
  - exists [EvGet atom atom]. split; [done|]. intros x y.
    split; [auto|]. intros [?|[Hin Hxy]]; [done|].
    apply list_elem_of_singleton in Hin. congruence.
  - unfold bind at 1, getAtomState. cbv beta iota.
    unfold bind at 1, addDependent. cbv beta iota.
    eapply edgesGrow_trans; [|apply Hr].
    exists [EvGet atom a]. split; [done|]. intros x y.
    rewrite !dependentsOf_updState. cbn [dependents]. rewrite list_elem_of_singleton.
    destruct (decide (x = a)) as [->|Hx].
    + rewrite stateOf_updState, decide_True by done. rewrite elem_of_setAdd.
      split; [intros [?| ->]; [by left|right; done]|].
      intros [?|[E ?]]; [by left|right; congruence].
    + split; [auto|]. intros [?|[E ?]]; [done|congruence].
Qed.

Lemma edgesGrow_readAtom f a : preserves (edgesGrow def) (readAtom def f a).
Proof.
  apply preserves_readAtom.
  - apply edgesGrow_refl.
  - apply edgesGrow_trans.
  - intros b st. by apply edgesGrow_updState.
  - intros b st. by apply edgesGrow_emit.
  - intros b v st. by apply edgesGrow_updState.
  - apply edgesGrow_trackedGet.
Qed.

End CoreFacts.

(** * Reading *)

Section ReadFacts.
Context `{JsValue} (def : atomId -> Atom).

(** ** The trace of a read *)

Lemma traceGrows_refl st : traceGrows st st.
Proof. exists []. by rewrite app_nil_r. Qed.

Lemma traceGrows_trans st1 st2 st3 :
  traceGrows st1 st2 -> traceGrows st2 st3 -> traceGrows st1 st3.
Proof. intros [t1 E1] [t2 E2]. exists (t1 ++ t2). by rewrite E2, E1, app_assoc. Qed.

Lemma traceGrows_emit e : preserves traceGrows (emit e).
Proof. intros st. by exists [e]. Qed.

Lemma traceGrows_updState a f st : traceGrows st (updState def a f st).
Proof. exists []. simpl. by rewrite app_nil_r. Qed.

Lemma traceGrows_trackedGet r atom a :
  (forall b, preserves traceGrows (r b)) ->
  preserves traceGrows (trackedGet def r atom a).
Proof.
  intros Hr. unfold trackedGet.
  apply preserves_bind; [apply traceGrows_trans|apply traceGrows_emit|intros _].
  case_decide; [intros st; apply traceGrows_refl|].
  apply preserves_bind; [apply traceGrows_trans|intros st; apply traceGrows_updState|intros _].
  apply preserves_bind; [apply traceGrows_trans|intros st; apply traceGrows_updState|intros _].
  apply Hr.
Qed.

Lemma traceGrows_readAtom f a : preserves traceGrows (readAtom def f a).
Proof.
  apply preserves_readAtom.
  - apply traceGrows_refl.
  - apply traceGrows_trans.
  - intros b st. apply traceGrows_updState.
  - intros b. apply traceGrows_emit.
  - intros b v st. apply traceGrows_updState.
  - apply traceGrows_trackedGet.
Qed.

(** Every call of [readAtom] that returns has called [atom.read]. *)
Lemma readAtom_calls_read fuel a st v st' :
  readAtom def fuel a st = Ok v st' -> 1 <= countReads a (newEvents st st').
Proof.
  destruct fuel as [|f]; [discriminate|]. simpl. intros Hrun.
  apply bind_Ok in Hrun as ([] & st1 & E1 & Hrun). injection E1 as <-.
  apply bind_Ok in Hrun as ([] & st2 & E2 & Hrun). injection E2 as <-.
  apply bind_Ok in Hrun as (u & st3 & E3 & Hrun).
  apply bind_Ok in Hrun as ([] & st4 & E4 & Hrun). injection E4 as <-.
  injection Hrun as _ <-.
  assert (traceGrows
    (mkStore (states (updState def a (fun s => s) st))
       (rendered (updState def a (fun s => s) st))
       (trace (updState def a (fun s => s) st) ++ [EvRead a])) st3) as [t Et].
  { pose proof (preserves_runRead traceGrows traceGrows_refl traceGrows_trans
      (trackedGet def (readAtom def f) a) (read (def a))) as Hp.
    unshelve epose proof (Hp _ _) as Hp'; [| |rewrite E3 in Hp'; exact Hp'].
    intros b. apply traceGrows_trackedGet. intros c. apply traceGrows_readAtom. }
  simpl in Et.
  rewrite (newEvents_app st _ ([EvRead a] ++ t)).
  - unfold countReads. simpl. rewrite filter_cons_True by done. simpl. lia.
  - simpl. rewrite Et. by rewrite <- app_assoc.
Qed.

(** ** The edges a read adds *)

Lemma readAtom_edges fuel a st :
  forall x y,
    y ∈ dependentsOf def x (finalStore (readAtom def fuel a st)) <->
    y ∈ dependentsOf def x st \/
    (y <> x /\ x ∈ getsOf y (newEvents st (finalStore (readAtom def fuel a st)))).
Proof.
  intros x y. destruct (edgesGrow_readAtom def fuel a st) as (t & Et & Ht).
  rewrite (newEvents_app _ _ _ Et), elem_of_getsOf, Ht. tauto.
Qed.

End ReadFacts.

Section ValueFacts.
Context `{JsValue} (def : atomId -> Atom).

(** ** Reads leave the value of another atom alone *)

Lemma sameValue_refl x st : sameValue def x st st.
Proof. reflexivity. Qed.

Lemma sameValue_trans x st1 st2 st3 :
  sameValue def x st1 st2 -> sameValue def x st2 st3 -> sameValue def x st1 st3.
Proof. unfold sameValue. congruence. Qed.

Lemma sameValue_emit x e : preserves (sameValue def x) (emit e).
Proof. by intros st. Qed.

Lemma sameValue_setRendered x l v : preserves (sameValue def x) (setRendered l v).
Proof. by intros st. Qed.

Lemma sameValue_updState x a f st :
  (x <> a \/ forall s, value_ (f s) = value_ s) ->
  sameValue def x st (updState def a f st).
Proof.
  intros Hf. unfold sameValue. rewrite valueOf_updState.
  case_decide; [|done]. subst. destruct Hf as [?|Hf]; [done|]. apply Hf.
Qed.

Lemma sameValue_getAtomState x a : preserves (sameValue def x) (getAtomState def a).
Proof. intros st. apply sameValue_updState. by right. Qed.

Lemma sameValue_trackedGet x r atom a :
  (forall b, preserves (sameValue def x) (r b)) ->
  preserves (sameValue def x) (trackedGet def r atom a).
Proof.
  intros Hr. unfold trackedGet.
  apply preserves_bind; [apply sameValue_trans|apply sameValue_emit|intros _].
  case_decide; [intros st; apply sameValue_refl|].
  apply preserves_bind; [apply sameValue_trans|apply sameValue_getAtomState|intros _].
  apply preserves_bind; [apply sameValue_trans| |intros _; apply Hr].
  intros st. apply sameValue_updState. by right.
Qed.

(** A read stores a value for the atoms it reads only, and for a primitive
    atom it stores the value that was there. *)
Lemma sameValue_readAtom x :
  passthrough def x -> forall f a, preserves (sameValue def x) (readAtom def f a).
Proof.
  intros Hx. induction f as [|f IH]; intros a; simpl.
  { by apply preserves_throw. }
  destruct (decide (x = a)) as [<-|Hne].
  - intros st. rewrite Hx. simpl. unfold bind, getAtomState, emit, trackedGet; simpl.
    unfold bind, emit, getValue, setValue; simpl. rewrite decide_True by done. simpl.
    unfold sameValue. rewrite valueOf_updState, decide_True by done. simpl.
    unfold stateOf at 1. simpl. by rewrite lookup_insert_eq.
  - do 2 (apply preserves_bind;
      [apply sameValue_trans|first [apply sameValue_getAtomState|apply sameValue_emit]|intros _]).
    apply preserves_bind; [apply sameValue_trans| |].
    + apply preserves_runRead; [apply sameValue_refl|apply sameValue_trans|].
      intros b. by apply sameValue_trackedGet.
    + intros v. apply preserves_bind; [apply sameValue_trans| |intros; by apply preserves_ret].
      intros st. apply sameValue_updState. by left.
Qed.

Lemma sameValue_notify x f a :
  passthrough def x -> preserves (sameValue def x) (notify def f a).
Proof.
  intros Hx. apply preserves_notify.
  - apply sameValue_refl.
  - apply sameValue_trans.
  - apply sameValue_getAtomState.
  - apply sameValue_setRendered.
  - intros b. apply sameValue_emit.
  - intros b l. apply sameValue_emit.
  - by apply sameValue_readAtom.
Qed.

(** ** Reads depend on the values of the primitive atoms only *)

Lemma agree_refl st : agree def st st.
Proof. by intros x _. Qed.

Lemma simulates_ret {A} (x : A) : simulates def (ret x).
Proof. intros st st' Hag v st1 [= <- <-]. eauto. Qed.

Lemma simulates_bind {A B} (m : M A) (k : A -> M B) :
  simulates def m -> (forall x, simulates def (k x)) -> simulates def (bind m k).
Proof.
  intros Hm Hk st st' Hag v st2 Hrun.
  apply bind_Ok in Hrun as (x & st1 & E1 & E2).
  destruct (Hm st st' Hag x st1 E1) as (st1' & E1' & Hag1).
  destruct (Hk x st1 st1' Hag1 v st2 E2) as (st2' & E2' & Hag2).
  exists st2'. split; [|done]. unfold bind. by rewrite E1'.
Qed.

Lemma simulates_update {A} (y : A) (g : Store -> Store) :
  (forall st st', agree def st st' -> agree def (g st) (g st')) ->
  simulates def (fun st => Ok y (g st)).
Proof. intros Hg st st' Hag v st1 [= <- <-]. eauto. Qed.

Lemma simulates_emit e : simulates def (emit e).
Proof. apply (simulates_update tt). intros st st' Hag x Hx. apply (Hag x Hx). Qed.

Lemma simulates_updState a f :
  (forall s s', value_ s = value_ s' -> value_ (f s) = value_ (f s')) ->
  simulates def (fun st => Ok tt (updState def a f st)).
Proof.
  intros Hf. apply (simulates_update tt). intros st st' Hag x Hx.
  rewrite !valueOf_updState. case_decide; [|by apply Hag].
  subst. apply Hf. by apply (Hag a).
Qed.

Lemma simulates_setValue a v : simulates def (setValue def a v).
Proof. by apply simulates_updState. Qed.

Lemma simulates_getValue a : passthrough def a -> simulates def (getValue def a).
Proof.
  intros Ha st st' Hag v st1 [= <- <-]. exists st'. split; [|done].
  unfold getValue. f_equal. symmetry. by apply (Hag a).
Qed.

Lemma simulates_trackedGet r atom a :
  (a = atom -> passthrough def atom) -> (forall b, simulates def (r b)) ->
  simulates def (trackedGet def r atom a).
Proof.
  intros Ha Hr. unfold trackedGet.
  apply simulates_bind; [apply simulates_emit|intros _].
  case_decide; [by apply simulates_getValue, Ha|].
  apply simulates_bind; [by apply simulates_updState|intros _].
  apply simulates_bind; [by apply simulates_updState|intros _].
  apply Hr.
Qed.

Lemma simulates_runRead_noSelfGet r atom p :
  noSelfGet atom p -> (forall b, simulates def (r b)) ->
  simulates def (runRead (trackedGet def r atom) p).
Proof.
  intros Hp Hr. induction Hp as [v|b k Hb Hk IH]; simpl.
  - apply simulates_ret.
  - apply simulates_bind; [|done]. by apply simulates_trackedGet.
Qed.

Lemma simulates_readAtom :
  (forall x, selfFree def x) -> forall f a, simulates def (readAtom def f a).
Proof.
  intros Hfree. induction f as [|f IH]; intros a; simpl.
  { intros st st' _ v st1 [=]. }
  apply simulates_bind; [by apply simulates_updState|intros _].
  apply simulates_bind; [apply simulates_emit|intros _].
  apply simulates_bind.
  - destruct (Hfree a) as [Hp|Hn].
    + rewrite Hp. simpl. apply simulates_bind; [|intros; apply simulates_ret].
      by apply simulates_trackedGet.
    + by apply simulates_runRead_noSelfGet.
  - intros v. apply simulates_bind; [apply simulates_setValue|intros; apply simulates_ret].
Qed.

End ValueFacts.

Section CycleFacts.
Context `{JsValue} (def : atomId -> Atom).

(** ** [readAtom] raises nothing *)

Lemma onlyOutOfFuel_ok {A} (g : Store -> A * Store) :
  onlyOutOfFuel (fun st => Ok (g st).1 (g st).2).
Proof. intros st e st' [=]. Qed.

Lemma onlyOutOfFuel_bind {A B} (m : M A) (k : A -> M B) :
  onlyOutOfFuel m -> (forall x, onlyOutOfFuel (k x)) -> onlyOutOfFuel (bind m k).
Proof.
  intros Hm Hk st e st'. unfold bind. destruct (m st) as [x st1|e1 st1] eqn:E.
  - apply Hk.
  - intros [= -> ->]. by apply (Hm st e st').
Qed.

Lemma onlyOutOfFuel_trackedGet r atom a :
  (forall b, onlyOutOfFuel (r b)) -> onlyOutOfFuel (trackedGet def r atom a).
Proof.
  intros Hr. unfold trackedGet.
  apply onlyOutOfFuel_bind; [by intros ??? [=]|intros _].
  case_decide; [by intros ??? [=]|].
  do 2 (apply onlyOutOfFuel_bind; [by intros ??? [=]|intros _]). apply Hr.
Qed.

Lemma onlyOutOfFuel_runRead g p :
  (forall b, onlyOutOfFuel (g b)) -> onlyOutOfFuel (runRead g p).
Proof.
  intros Hg. induction p as [v|a k IH]; simpl.
  - by intros ??? [=].
  - by apply onlyOutOfFuel_bind.
Qed.

Lemma onlyOutOfFuel_readAtom f : forall a, onlyOutOfFuel (readAtom def f a).
Proof.
  induction f as [|f IH]; intros a; simpl.
  { intros st e st'. unfold throw. by intros [= <- _]. }
  do 2 (apply onlyOutOfFuel_bind; [by intros ??? [=]|intros _]).
  apply onlyOutOfFuel_bind.
  - apply onlyOutOfFuel_runRead. intros b. by apply onlyOutOfFuel_trackedGet.
  - intros v. apply onlyOutOfFuel_bind; [by intros ??? [=]|by intros ???? [=]].
Qed.

(** ** [get] on the atom under evaluation *)

(** [get (atom)] inside the read function of [atom] is no error: it returns
    the value stored for [atom] and adds no edge. *)
Lemma trackedGet_self r atom st :
  trackedGet def r atom atom st =
  Ok (valueOf def atom st)
     (mkStore (states st) (rendered st) (trace st ++ [EvGet atom atom])).
Proof.
  unfold trackedGet, bind, emit. cbv beta iota. by rewrite decide_True.
Qed.

(** ** A cycle is followed without end *)

Lemma isOutOfFuel_bind_l {A B} (m : M A) (k : A -> M B) st :
  isOutOfFuel (m st) -> isOutOfFuel (bind m k st).
Proof. rewrite isOutOfFuel_bind. destruct (m st) as [x st1|[|a] st1]; simpl; tauto. Qed.

Lemma runRead_getsInto cyc r atom p st :
  getsInto cyc atom p ->
  (forall b, onlyOutOfFuel (r b)) ->
  (forall y st', cyc y -> isOutOfFuel (r y st')) ->
  isOutOfFuel (runRead (trackedGet def r atom) p st).
Proof.
  intros Hp Hr Hcyc. revert st.
  induction Hp as [y k Hy Hin|y k Hk IH]; intros st; simpl.
  - apply isOutOfFuel_bind_l. unfold trackedGet.
    rewrite isOutOfFuel_bind. simpl. rewrite decide_False by done.
    rewrite isOutOfFuel_bind. simpl. rewrite isOutOfFuel_bind. simpl. by apply Hcyc.
  - rewrite isOutOfFuel_bind.
    destruct (trackedGet def r atom y st) as [v st1|e st1] eqn:E; [apply IH|].
    apply onlyOutOfFuel_trackedGet in E; [by subst|done].
Qed.

Lemma readAtom_cyclic cyc :
  cyclic def cyc -> forall f a st, cyc a -> isOutOfFuel (readAtom def f a st).
Proof.
  intros Hcyc. induction f as [|f IH]; intros a st Ha; simpl; [done|].
  rewrite isOutOfFuel_bind. simpl. rewrite isOutOfFuel_bind. simpl.
  apply isOutOfFuel_bind_l. eapply runRead_getsInto.
  - by apply Hcyc.
  - apply onlyOutOfFuel_readAtom.
  - intros y st' Hy. by apply IH.
Qed.

(** Nothing is stored for an atom of the cycle, whichever atom is read. *)
Lemma sameValue_readAtom_cyclic cyc x :
  cyclic def cyc -> cyc x -> forall f a, preserves (sameValue def x) (readAtom def f a).
Proof.
  intros Hcyc Hx. induction f as [|f IH]; intros a.
  { by apply preserves_throw. }
  intros st. pose proof (readAtom_cyclic cyc Hcyc (S f) a st) as Hoof.
  simpl in *. rewrite finalStore_bind. simpl. rewrite finalStore_bind. simpl.
  rewrite finalStore_bind. unfold bind in Hoof. simpl in Hoof.
  set (st2 := mkStore (<[a:=stateOf def a st]> (states st)) (rendered st)
                (trace st ++ [EvRead a])) in *.
  assert (sameValue def x st st2) as H2.
  { unfold sameValue, valueOf, stateOf, st2. simpl.
    destruct (decide (x = a)) as [->|Hne].
    - by rewrite lookup_insert_eq.
    - by rewrite lookup_insert_ne. }
  assert (sameValue def x st2
    (finalStore (runRead (trackedGet def (readAtom def f) a) (read (def a)) st2))) as H3.
  { apply preserves_runRead; [apply sameValue_refl|apply sameValue_trans|].
    intros b. by apply sameValue_trackedGet. }
  destruct (runRead _ _ st2) as [v st3|e st3]; simpl in *.
  - destruct (decide (x = a)) as [->|Hne]; [by destruct (Hoof Hx)|].
    eapply sameValue_trans; [exact H2|]. eapply sameValue_trans; [exact H3|].
    apply sameValue_updState. by left.
  - by eapply sameValue_trans.
Qed.

End CycleFacts.

Section PrimitiveFacts.
Context `{JsValue} (def : atomId -> Atom).

(** ** Reading and notifying a primitive atom *)

Lemma stateOf_eta (s : AtomState) :
  mkAtomState (value_ s) (listeners s) (dependents s) = s.
Proof. by destruct s. Qed.

Lemma readAtom_passthrough p f st :
  passthrough def p ->
  readAtom def (S f) p st =
  Ok (valueOf def p st)
     (mkStore (<[p := stateOf def p st]> (states st)) (rendered st)
        (trace st ++ [EvRead p; EvGet p p])).
Proof.
  intros Hp. simpl. rewrite Hp. simpl.
  unfold bind, getAtomState, emit, trackedGet; simpl.
  unfold bind, emit, getValue, setValue; simpl. rewrite decide_True by done. simpl.
  unfold valueOf, updState, stateOf; simpl. rewrite !lookup_insert_eq.
  rewrite stateOf_eta, insert_insert_eq, <- app_assoc. done.
Qed.

Lemma sameSets_refl x st : sameSets def x st st.
Proof. by split. Qed.

Lemma sameSets_trans x st1 st2 st3 :
  sameSets def x st1 st2 -> sameSets def x st2 st3 -> sameSets def x st1 st3.
Proof. unfold sameSets. intros [E1 E2] [E3 E4]. split; congruence. Qed.

Lemma stateOf_touch x a st r t :
  stateOf def x (mkStore (<[a := stateOf def a st]> (states st)) r t) = stateOf def x st.
Proof.
  unfold stateOf at 1; simpl.
  destruct (decide (x = a)) as [->|Hne].
  - by rewrite lookup_insert_eq.
  - rewrite lookup_insert_ne by done. done.
Qed.

Lemma callback_passthrough p f l st :
  passthrough def p ->
  callback def (S f) p l st =
  Ok tt (mkStore (<[p := stateOf def p st]> (states st))
           (<[l := setState (valueOf def p st) (componentState l st)]> (rendered st))
           (trace st ++ [EvRead p; EvGet p p])).
Proof. intros Hp. unfold callback, bind. by rewrite readAtom_passthrough. Qed.

Lemma forEachListener_S f a i st :
  forEachListener def (S f) a i st =
  match listeners (stateOf def a st) !! i with
  | None => Ok tt st
  | Some l =>
      (emit (EvListener a l);; callback def f a l;; forEachListener def f a (S i)) st
  end.
Proof. reflexivity. Qed.

Lemma forEachListener_passthrough p :
  passthrough def p ->
  forall rest i fuel st,
    drop i (listenersOf def p st) = rest ->
    length rest + 2 <= fuel ->
    exists st',
      forEachListener def fuel p i st = Ok tt st' /\
      trace st' = trace st ++ listenerEvents p rest /\
      (forall x, stateOf def x st' = stateOf def x st).
Proof.
  intros Hp. induction rest as [|l rest IH]; intros i fuel st Hdrop Hfuel.
  - destruct fuel as [|f]; [lia|]. rewrite forEachListener_S.
    assert (listeners (stateOf def p st) !! i = None) as ->.
    { apply lookup_ge_None. by apply drop_nil_inv. }
    exists st. split; [done|]. split; [|done]. unfold listenerEvents. simpl.
    by rewrite app_nil_r.
  - destruct fuel as [|[|f]]; [simpl in Hfuel; lia..|]. simpl in Hfuel.
    assert (listeners (stateOf def p st) !! i = Some l) as Hl.
    { pose proof (lookup_drop (listenersOf def p st) i 0) as E.
      rewrite Hdrop, Nat.add_0_r in E. symmetry. exact E. }
    rewrite forEachListener_S, Hl.
    unfold bind at 1, emit. cbv beta iota.
    unfold bind at 1. rewrite callback_passthrough by done.
    set (st1 := mkStore _ _ _).
    assert (forall x, stateOf def x st1 = stateOf def x st) as Hst1.
    { intros x. unfold st1. by rewrite stateOf_touch. }
    destruct (IH (S i) (S f) st1) as (st' & Hrun & Htr & Hst).
    + unfold listenersOf. rewrite Hst1. fold (listenersOf def p st).
      replace (S i) with (i + 1) by lia.
      by rewrite <- drop_drop, Hdrop.
    + lia.
    + exists st'. split; [done|]. split.
      * rewrite Htr. unfold st1. simpl. unfold listenerEvents. simpl.
        by rewrite <- !app_assoc.
      * intros x. by rewrite Hst.
Qed.

Lemma forEachDependent_S f a i st :
  forEachDependent def (S f) a i st =
  match dependents (stateOf def a st) !! i with
  | None => Ok tt st
  | Some d =>
      ((if decide (d = a) then ret tt else notify def f d);;
       forEachDependent def f a (S i)) st
  end.
Proof. reflexivity. Qed.

Lemma notify_S f a :
  notify def (S f) a =
  (getAtomState def a;; emit (EvNotify a);;
   forEachDependent def f a 0;; forEachListener def f a 0).
Proof. reflexivity. Qed.

(** One [notify] of a primitive atom nobody depends on: every listener is
    called once, in the order of registration. *)
Lemma notify_passthrough p fuel st :
  passthrough def p ->
  dependentsOf def p st = [] ->
  length (listenersOf def p st) + 3 <= fuel ->
  exists st',
    notify def fuel p st = Ok tt st' /\
    trace st' = trace st ++ passEvents p (listenersOf def p st) /\
    (forall x, stateOf def x st' = stateOf def x st).
Proof.
  intros Hp Hdep Hfuel. destruct fuel as [|[|f]]; [lia..|].
  rewrite notify_S. unfold bind at 1, getAtomState. cbv beta iota.
  unfold bind at 1, emit. cbv beta iota.
  set (st1 := mkStore _ _ _).
  assert (forall x, stateOf def x st1 = stateOf def x st) as Hst1.
  { intros x. unfold st1, updState. simpl. by rewrite stateOf_touch. }
  unfold bind at 1. rewrite forEachDependent_S, Hst1.
  unfold dependentsOf in Hdep. rewrite Hdep. cbn [lookup list_lookup].
  destruct (forEachListener_passthrough p Hp (listenersOf def p st) 0 (S f) st1)
    as (st' & Hrun & Htr & Hst).
  - unfold listenersOf. by rewrite Hst1.
  - lia.
  - exists st'. split; [done|]. split.
    + rewrite Htr. unfold st1. simpl. by rewrite <- app_assoc.
    + intros x. by rewrite Hst.
Qed.

End PrimitiveFacts.

Section WriteFacts.
Context `{JsValue} (def : atomId -> Atom).

(** ** Writing a primitive atom *)

Lemma writeAtom_S f a v :
  writeAtom def (S f) a v =
  (getAtomState def a;;
   match write (def a) with
   | None => throw (NotAFunction a)
   | Some w => runWrite def (setFrom def f (writeAtom def f) a) (w v)
   end).
Proof. reflexivity. Qed.

(** Writing an atom that has no write function: [atom.write] is not a
    function. *)
Lemma writeAtom_without_write f a v st :
  write (def a) = None ->
  writeAtom def (S f) a v st = Fail (NotAFunction a) (updState def a (fun s => s) st).
Proof. intros Hw. rewrite writeAtom_S. unfold bind, getAtomState. by rewrite Hw. Qed.

Lemma bind_ret_tt (m : M unit) st : bind m (fun _ => ret tt) st = m st.
Proof. unfold bind, ret. by destruct (m st) as [[] ?|]. Qed.

Lemma passthrough_atom p i w : def p = atom p (inr i) w -> passthrough def p.
Proof. intros E. unfold passthrough. by rewrite E. Qed.

Lemma writeAtom_primitive p i f u st :
  def p = atom p (inr i) None ->
  writeAtom def (S f) p u st =
  (setValue def p (nextValue def p u st);; notify def f p)
    (updState def p (fun s => s) st).
Proof.
  intros Hdef. rewrite writeAtom_S. unfold bind at 1, getAtomState. cbv beta iota.
  rewrite Hdef. cbn [atom write]. unfold defaultWrite, nextValue.
  destruct (isFunction u); cbn [runWrite].
  - unfold bind at 1, untrackedGet, bind at 1, getAtomState, getValue. cbv beta iota.
    rewrite updState_id_idem. rewrite bind_ret_tt.
    unfold setFrom. rewrite decide_True by done.
    rewrite stateOf_updState, decide_True by done. done.
  - rewrite bind_ret_tt. unfold setFrom. by rewrite decide_True.
Qed.

Lemma writeAtom_primitive_value p i fuel u st st' :
  def p = atom p (inr i) None ->
  writeAtom def fuel p u st = Ok tt st' ->
  valueOf def p st' = nextValue def p u st.
Proof.
  intros Hdef. destruct fuel as [|f]; [discriminate|].
  rewrite (writeAtom_primitive p i) by done. intros Hrun.
  apply bind_Ok in Hrun as ([] & st1 & E1 & Hrun). injection E1 as <-.
  pose proof (sameValue_notify def p f p (passthrough_atom p i None Hdef)
    (updState def p (fun s => mkAtomState (nextValue def p u st) (listeners s) (dependents s))
       (updState def p (fun s => s) st))) as Hsame.
  rewrite Hrun in Hsame. unfold sameValue in Hsame. simpl in Hsame.
  rewrite Hsame, valueOf_updState. by rewrite decide_True.
Qed.

Lemma writeAtom_primitive_alone p i fuel u st :
  def p = atom p (inr i) None ->
  dependentsOf def p st = [] ->
  length (listenersOf def p st) + 4 <= fuel ->
  exists st',
    writeAtom def fuel p u st = Ok tt st' /\
    trace st' = trace st ++ passEvents p (listenersOf def p st) /\
    sameSets def p st st' /\
    (forall x, x <> p -> stateOf def x st' = stateOf def x st).
Proof.
  intros Hdef Hdep Hfuel. destruct fuel as [|f]; [lia|].
  rewrite (writeAtom_primitive p i) by done.
  unfold bind, setValue. cbv beta iota.
  set (st1 := updState def p _ (updState def p _ st)).
  assert (forall x, listeners (stateOf def x st1) = listeners (stateOf def x st) /\
                    dependents (stateOf def x st1) = dependents (stateOf def x st)) as Hsets.
  { intros x. unfold st1. rewrite !stateOf_updState.
    destruct (decide (x = p)) as [->|Hne]; [|done].
    rewrite decide_True by done. done. }
  assert (forall x, x <> p -> stateOf def x st1 = stateOf def x st) as Hoth.
  { intros x Hx. unfold st1. rewrite !stateOf_updState. by rewrite !decide_False. }
  destruct (notify_passthrough def p f st1) as (st' & Hrun & Htr & Hst).
  - by eapply passthrough_atom.
  - unfold dependentsOf. by rewrite (proj2 (Hsets p)).
  - unfold listenersOf. rewrite (proj1 (Hsets p)). fold (listenersOf def p st). lia.
  - exists st'. split; [done|]. split; [|split].
    + rewrite Htr. unfold listenersOf. by rewrite (proj1 (Hsets p)).
    + unfold sameSets, listenersOf, dependentsOf. rewrite !Hst. apply Hsets.
    + intros x Hx. rewrite Hst. by apply Hoth.
Qed.

(** ** A write function that calls [set] several times *)

Lemma runWrite_setsOf p i w f vs :
  def p = atom p (inr i) None -> w <> p ->
  forall st,
    dependentsOf def p st = [] ->
    length (listenersOf def p st) + 4 <= f ->
    exists st',
      runWrite def (setFrom def f (writeAtom def f) w) (setsOf p vs) st = Ok tt st' /\
      trace st' =
        trace st ++ concat (map (fun _ => passEvents p (listenersOf def p st)) vs) /\
      sameSets def p st st'.
Proof.
  intros Hdef Hne. induction vs as [|v vs IH]; intros st Hdep Hfuel; simpl.
  - exists st. split; [done|]. split; [by rewrite app_nil_r|by split].
  - unfold bind at 1, setFrom at 1. rewrite decide_False by done.
    destruct (writeAtom_primitive_alone p i f v st Hdef Hdep Hfuel)
      as (st1 & Hrun & Htr & [Hls Hds] & _).
    rewrite Hrun.
    destruct (IH st1) as (st' & Hrun' & Htr' & [Hls' Hds']).
    + by rewrite Hds.
    + by rewrite Hls.
    + exists st'. split; [done|]. split; [|split; congruence].
      rewrite Htr', Htr, Hls. by rewrite <- app_assoc.
Qed.

Lemma countNotify_app a t1 t2 :
  countNotify a (t1 ++ t2) = countNotify a t1 + countNotify a t2.
Proof. unfold countNotify. by rewrite filter_app, length_app. Qed.

Lemma countListener_app a l t1 t2 :
  countListener a l (t1 ++ t2) = countListener a l t1 + countListener a l t2.
Proof. unfold countListener. by rewrite filter_app, length_app. Qed.

Lemma countNotify_passEvents p ls : countNotify p (passEvents p ls) = 1.
Proof.
  unfold passEvents, countNotify. rewrite filter_cons_True by done. simpl. f_equal.
  unfold listenerEvents. induction ls as [|l ls IH]; [done|]. simpl.
  do 3 (rewrite filter_cons_False by done). exact IH.
Qed.

Lemma countListener_passEvents p l ls :
  countListener p l (passEvents p ls) = length (filter (fun x => x = l) ls).
Proof.
  unfold passEvents, countListener. rewrite filter_cons_False by done.
  unfold listenerEvents. induction ls as [|x ls IH]; [done|]. simpl.
  destruct (decide (x = l)) as [->|Hne].
  - rewrite filter_cons_True by done. do 2 (rewrite filter_cons_False by done).
    rewrite filter_cons_True by done. simpl. by rewrite IH.
  - rewrite filter_cons_False by congruence. do 2 (rewrite filter_cons_False by done).
    rewrite filter_cons_False by done. exact IH.
Qed.

Lemma countNotify_passes {A} p ls (vs : list A) :
  countNotify p (concat (map (fun _ => passEvents p ls) vs)) = length vs.
Proof.
  induction vs as [|v vs IH]; [done|]. cbn [concat map length].
  by rewrite countNotify_app, countNotify_passEvents, IH.
Qed.

Lemma countListener_passes {A} p l ls (vs : list A) :
  countListener p l (concat (map (fun _ => passEvents p ls) vs)) =
  length vs * length (filter (fun x => x = l) ls).
Proof.
  induction vs as [|v vs IH]; [done|]. cbn [concat map length].
  by rewrite countListener_app, countListener_passEvents, IH.
Qed.

End WriteFacts.

(** * The claims about the core *)

Section CoreClaims.
Context `{JsValue} (def : atomId -> Atom).

(** C2, as amended.  Reading a cell twice with no write in between returns
    the same value both times when every cell is primitive or does not read
    the value stored for itself; nothing is memoized: the second read calls
    the read function of the cell again. *)
Theorem reread_same_value_not_memoized fuel a st v st1 :
  (forall x, selfFree def x) ->
  readAtom def fuel a st = Ok v st1 ->
  exists st2,
    readAtom def fuel a st1 = Ok v st2 /\
    1 <= countReads a (newEvents st1 st2).
Proof.
  intros Hfree Hrun.
  assert (agree def st st1) as Hag.
  { intros x Hx. pose proof (sameValue_readAtom def x Hx fuel a st) as Hs.
    rewrite Hrun in Hs. symmetry. exact Hs. }
  destruct (simulates_readAtom def Hfree fuel a st st1 Hag v st1 Hrun)
    as (st2 & Hrun2 & _).
  exists st2. split; [done|]. by eapply readAtom_calls_read.
Qed.

(** C3, as amended.  The record of a cell holds no set of dependencies.  A
    recomputation only adds dependent edges: after it, the dependents of a
    cell [x] are those it had before and every cell other than [x] that passed
    [x] to [get] during the recomputation.  Edges of an earlier evaluation
    stay. *)
Theorem readAtom_adds_edges_only fuel a st v st' :
  readAtom def fuel a st = Ok v st' ->
  forall x y,
    y ∈ dependentsOf def x st' <->
    y ∈ dependentsOf def x st \/ (y <> x /\ x ∈ getsOf y (newEvents st st')).
Proof.
  intros Hrun x y. pose proof (readAtom_edges def fuel a st x y) as Hed.
  by rewrite Hrun in Hed.
Qed.

(** C4, as amended.  When the cells of a set each read a cell of the set
    (so the [get]s lead back to a cell under evaluation), reading one of them
    raises no cyclic-dependency error: the read recurses without bound and
    never returns, whatever the fuel, and no value is stored for a cell of the
    set. *)
Theorem cyclic_read_never_returns cyc a st :
  cyclic def cyc -> cyc a ->
  neverReturns (fun fuel => readAtom def fuel a) st /\
  forall fuel x, cyc x ->
    valueOf def x (finalStore (readAtom def fuel a st)) = valueOf def x st.
Proof.
  intros Hcyc Ha. split.
  - intros fuel. by apply (readAtom_cyclic def cyc).
  - intros fuel x Hx. by apply (sameValue_readAtom_cyclic def cyc x).
Qed.

(** C5, as amended.  Every [set] call runs its own propagation pass at once.
    A write function that calls [set] on a primitive cell [p] [n] times, [p]
    having no dependents, enters [notify (p)] [n] times, and each listener of
    [p] is called [n] times. *)
Theorem sets_notify_each_time p i w vs arg fuel st :
  def p = atom p (inr i) None ->
  write (def w) = Some (fun _ => setsOf p vs) ->
  w <> p ->
  dependentsOf def p st = [] ->
  length (listenersOf def p st) + 5 <= fuel ->
  exists st',
    writeAtom def fuel w arg st = Ok tt st' /\
    newEvents st st' =
      concat (map (fun _ => passEvents p (listenersOf def p st)) vs) /\
    countNotify p (newEvents st st') = length vs /\
    forall l, countListener p l (newEvents st st') =
              length vs * length (filter (fun x => x = l) (listenersOf def p st)).
Proof.
  intros Hdef Hw Hne Hdep Hfuel. destruct fuel as [|f]; [lia|].
  rewrite writeAtom_S, Hw. unfold bind at 1, getAtomState. cbv beta iota.
  set (st1 := updState def w _ st).
  assert (forall x, stateOf def x st1 = stateOf def x st) as Hst1.
  { intros x. unfold st1. rewrite stateOf_updState. by case_decide; subst. }
  destruct (runWrite_setsOf def p i w f vs Hdef Hne st1) as (st' & Hrun & Htr & _).
  - unfold dependentsOf. by rewrite Hst1.
  - unfold listenersOf. rewrite Hst1. fold (listenersOf def p st). lia.
  - exists st'. split; [done|].
    assert (newEvents st st' =
            concat (map (fun _ => passEvents p (listenersOf def p st)) vs)) as ->.
    { apply newEvents_app. rewrite Htr. unfold listenersOf. by rewrite Hst1. }
    split; [done|]. split.
    + apply countNotify_passes.
    + intros l. apply countListener_passes.
Qed.

(** C8, as amended.  For a primitive cell and a value [v] that is not a
    function, writing [v] and writing a constant function returning [v] do
    the same: an update that is a function is applied to the current value
    of the cell to give the next value, any other update is the next value.
    With fuel for its listeners, a write of a cell nobody depends on returns,
    and the cell then holds [v]. *)
Theorem write_value_or_constant_function p i v k fuel st :
  def p = atom p (inr i) None ->
  isFunction v = false ->
  isFunction k = true ->
  (forall x, call k x = v) ->
  writeAtom def fuel p k st = writeAtom def fuel p v st /\
  (forall u st',
     writeAtom def fuel p u st = Ok tt st' ->
     valueOf def p st' = if isFunction u then call u (valueOf def p st) else u) /\
  (dependentsOf def p st = [] ->
   length (listenersOf def p st) + 4 <= fuel ->
   exists st', writeAtom def fuel p v st = Ok tt st' /\ valueOf def p st' = v).
Proof.
  intros Hdef Hv Hk Hconst. split; [|split].
  - destruct fuel as [|f]; [done|].
    rewrite !(writeAtom_primitive def p i) by done.
    unfold nextValue. by rewrite Hv, Hk, Hconst.
  - intros u st' Hrun. by apply (writeAtom_primitive_value def p i fuel).
  - intros Hdep Hfuel.
    destruct (writeAtom_primitive_alone def p i fuel v st Hdef Hdep Hfuel)
      as (st' & Hrun & _).
    exists st'. split; [done|].
    rewrite (writeAtom_primitive_value def p i fuel v st st' Hdef Hrun).
    unfold nextValue. by rewrite Hv.
Qed.

End CoreClaims.

Section DiamondClaim.
Context `{JsValue}.
Variables (initA : value) (fB fC : value -> value) (fD : value -> value -> value).

Import Diamond.

Lemma countListener_diamondPass l : countListener D l (diamondPass l) = 2.
Proof.
  unfold countListener, diamondPass, rereadD. cbn [app].
  repeat first [rewrite filter_cons_False by done|rewrite filter_cons_True by done].
  done.
Qed.

Lemma diamond_mount l :
  mount (graph initA fB fC fD) 20 D l emptyStore =
  Ok tt (finalStore (mount (graph initA fB fC fD) 20 D l emptyStore)).
Proof. vm_compute. reflexivity. Qed.

Lemma diamond_write l v :
  exists st2,
    writeAtom (graph initA fB fC fD) 20 A v
      (finalStore (mount (graph initA fB fC fD) 20 D l emptyStore)) = Ok tt st2 /\
    newEvents (finalStore (mount (graph initA fB fC fD) 20 D l emptyStore)) st2 =
      diamondPass l.
Proof.
  rewrite (writeAtom_primitive (graph initA fB fC fD) A initA) by reflexivity.
  eexists. split; vm_compute; reflexivity.
Qed.

(** C1, as amended.  In the diamond, with a listener registered on [D], a
    write of [A] calls the listener of [D] once for each of the two paths
    from [A] to [D]: twice, since [notify] marks no cell as visited. *)
Theorem diamond_listener_once_per_path l v fuel :
  20 <= fuel ->
  exists st1 st2,
    mount (graph initA fB fC fD) fuel D l emptyStore = Ok tt st1 /\
    writeAtom (graph initA fB fC fD) fuel A v st1 = Ok tt st2 /\
    newEvents st1 st2 = diamondPass l /\
    countListener D l (newEvents st1 st2) = 2.
Proof.
  intros Hle. destruct (diamond_write l v) as (st2 & Hw & Hev).
  exists (finalStore (mount (graph initA fB fC fD) 20 D l emptyStore)), st2.
  split; [|split; [|split]].
  - rewrite (mount_refines _ 20 fuel D l Hle); [apply diamond_mount|].
    rewrite diamond_mount. simpl. tauto.
  - rewrite (writeAtom_refines _ 20 fuel A v Hle); [done|].
    rewrite Hw. simpl. tauto.
  - done.
  - rewrite Hev. apply countListener_diamondPass.
Qed.

End DiamondClaim.

(** ** The claims on concrete programs *)

Section ScenarioFacts.
Import Scenarios.

Lemma shop_selfFree x : selfFree shop x.
Proof.
  destruct x as [|x]; [by left|right]. simpl.
  apply noSelfGet_get; [done|]. intros v. apply noSelfGet_ret.
Qed.

Lemma loop_cyclic : cyclic loop (fun _ => True).
Proof.
  intros x _. destruct x as [|x]; simpl; by apply getsInto_here.
Qed.

(** [price = 10], so [doubled] reads as [20]. *)
Example shop_read_doubled :
  exists st, readAtom shop 5 doubled emptyStore = Ok (JNum 20) st.
Proof. eexists. vm_compute. reflexivity. Qed.

(** After [write (price, 25)], [doubled] reads as [50], and a listener
    registered on [doubled] was called once by the write. *)
Example shop_write_then_read :
  exists st1 st2 st3,
    mount shop 5 doubled 7 emptyStore = Ok tt st1 /\
    writeAtom shop 10 price (JNum 25) st1 = Ok tt st2 /\
    readAtom shop 5 doubled st2 = Ok (JNum 50) st3 /\
    countListener doubled 7 (newEvents st1 st2) = 1.
Proof.
  do 3 eexists. split; [vm_compute; reflexivity|].
  split; [vm_compute; reflexivity|].
  split; vm_compute; reflexivity.
Qed.

(** [write (price, () => 25)] where [price] was [10] gives [25]. *)
Example shop_functional_update :
  exists st,
    writeAtom shop 10 price (JConst (JNum 25)) emptyStore = Ok tt st /\
    valueOf shop price st = JNum 25.
Proof. eexists. split; vm_compute; reflexivity. Qed.

(** [write (price, (x) => x + 1)] where [price] was [10] gives [11]. *)
Example shop_increment :
  exists st,
    writeAtom shop 10 price increment emptyStore = Ok tt st /\
    valueOf shop price st = JNum 11.
Proof. eexists. split; vm_compute; reflexivity. Qed.

(** Writing [doubled], which has no write function, is a [TypeError]. *)
Example shop_write_doubled :
  exists st, writeAtom shop 10 doubled (JNum 1) emptyStore = Fail (NotAFunction doubled) st.
Proof. eexists. vm_compute. reflexivity. Qed.

(** C1: the listener of [D] is called twice by one write of [A]. *)
Lemma diamond_listener_called_twice :
  succeeded (writeAtom diamond 20 Diamond.A (JNum 5) diamondMounted) = true /\
  countListener Diamond.D 7 (newEvents diamondMounted diamondWritten) = 2.
Proof. split; vm_compute; reflexivity. Qed.

Lemma diamond_listener_once_per_path_witness :
  exists st1 st2,
    mount diamond 25 Diamond.D 7 emptyStore = Ok tt st1 /\
    writeAtom diamond 25 Diamond.A (JNum 5) st1 = Ok tt st2 /\
    newEvents st1 st2 = Diamond.diamondPass 7 /\
    countListener Diamond.D 7 (newEvents st1 st2) = 2.
Proof.
  apply (diamond_listener_once_per_path (H:=jsv_values)
           (JNum 1) (onNum (Z.add 1)) (onNum (Z.mul 2)) (onNum2 Z.add) 7 (JNum 5) 25).
  lia.
Defined.

(** C2: two reads of [doubled] in a row call its read function twice. *)
Lemma doubled_read_twice_computed_twice :
  exists st,
    readTwice shop 5 doubled emptyStore = Ok (JNum 20, JNum 20) st /\
    countReads doubled (trace st) = 2.
Proof. eexists. split; vm_compute; reflexivity. Qed.

(** A cell that reads the value stored for itself gives another value at
    each read. *)
Lemma ticker_changes_at_each_read :
  exists st, readTwice clock 5 ticker emptyStore = Ok (JNum 1, JNum 2) st.
Proof. eexists. vm_compute. reflexivity. Qed.

Lemma reread_same_value_not_memoized_witness :
  exists st2,
    readAtom shop 5 doubled shopRead = Ok (JNum 20) st2 /\
    1 <= countReads doubled (newEvents shopRead st2).
Proof.
  apply (reread_same_value_not_memoized shop 5 doubled emptyStore (JNum 20) shopRead).
  - apply shop_selfFree.
  - vm_compute. reflexivity.
Defined.

(** C3: [chosen] read [left] in its first evaluation and does not in its
    second, and it is still a dependent of [left]. *)
Lemma stale_dependent_edge_kept :
  readAtom switch 5 chosen switchBefore = Ok (JNum 20) switchAfter /\
  getsOf chosen (newEvents switchBefore switchAfter) = [flag; right] /\
  dependentsOf switch left switchAfter = [chosen].
Proof. split; [|split]; vm_compute; reflexivity. Qed.

Lemma readAtom_adds_edges_only_witness :
  chosen ∈ dependentsOf switch right switchAfter <->
  chosen ∈ dependentsOf switch right switchBefore \/
  (chosen <> right /\ right ∈ getsOf chosen (newEvents switchBefore switchAfter)).
Proof.
  apply (readAtom_adds_edges_only switch 5 chosen switchBefore (JNum 20) switchAfter).
  vm_compute. reflexivity.
Defined.

(** C4: [ping] reads [pong], which reads [ping]: the read goes on for ever,
    and fails with no error of its own. *)
Lemma ping_pong_never_returns :
  neverReturns (fun fuel => readAtom loop fuel ping) emptyStore.
Proof. intros fuel. by apply (readAtom_cyclic loop (fun _ => True) loop_cyclic). Qed.

Lemma cyclic_read_never_returns_witness :
  neverReturns (fun fuel => readAtom loop fuel ping) emptyStore /\
  forall fuel x, True ->
    valueOf loop x (finalStore (readAtom loop fuel ping emptyStore)) =
    valueOf loop x emptyStore.
Proof.
  apply (cyclic_read_never_returns loop (fun _ => True) ping emptyStore).
  - apply loop_cyclic.
  - exact I.
Defined.

(** C5: a write function that calls [set] twice enters [notify] twice, and
    the listener is called twice. *)
Lemma two_sets_two_passes :
  succeeded (writeAtom burst 10 twice JUndefined burstMounted) = true /\
  countNotify count (newEvents burstMounted burstWritten) = 2 /\
  countListener count 7 (newEvents burstMounted burstWritten) = 2.
Proof. split; [|split]; vm_compute; reflexivity. Qed.

Lemma sets_notify_each_time_witness :
  exists st',
    writeAtom burst 10 twice JUndefined burstMounted = Ok tt st' /\
    newEvents burstMounted st' =
      concat (map (fun _ => passEvents count (listenersOf burst count burstMounted))
                [JNum 1; JNum 2]) /\
    countNotify count (newEvents burstMounted st') = length [JNum 1; JNum 2] /\
    forall l, countListener count l (newEvents burstMounted st') =
              length [JNum 1; JNum 2] *
              length (filter (fun x => x = l) (listenersOf burst count burstMounted)).
Proof.
  apply (sets_notify_each_time burst count (JNum 0) twice [JNum 1; JNum 2]
           JUndefined 10 burstMounted).
  - reflexivity.
  - reflexivity.
  - discriminate.
  - vm_compute. reflexivity.
  - vm_compute. lia.
Defined.

(** C8: for [v] the function [(x) => x + 1], writing [v] to [price] stores
    [11] and writing [() => v] stores [v]. *)
Lemma function_value_written_differs :
  valueOf shop price (finalStore (writeAtom shop 10 price increment emptyStore))
    = JNum 11 /\
  valueOf shop price
    (finalStore (writeAtom shop 10 price (JConst increment) emptyStore))
    = increment /\
  (forall x, jsCall (JConst increment) x = increment) /\
  JNum 11 <> increment.
Proof.
  split; [vm_compute; reflexivity|]. split; [vm_compute; reflexivity|].
  split; [intros x; reflexivity|discriminate].
Qed.

Lemma write_value_or_constant_function_witness :
  writeAtom shop 10 price (JConst (JNum 25)) emptyStore =
  writeAtom shop 10 price (JNum 25) emptyStore /\
  (forall u st',
     writeAtom shop 10 price u emptyStore = Ok tt st' ->
     valueOf shop price st' =
     if jsIsFunction u then jsCall u (valueOf shop price emptyStore) else u) /\
  (dependentsOf shop price emptyStore = [] ->
   length (listenersOf shop price emptyStore) + 4 <= 10 ->
   exists st',
     writeAtom shop 10 price (JNum 25) emptyStore = Ok tt st' /\
     valueOf shop price st' = JNum 25).
Proof.
  apply (write_value_or_constant_function shop price (JNum 10) (JNum 25)
           (JConst (JNum 25)) 10 emptyStore); reflexivity.
Defined.

End ScenarioFacts.

(** * The claims about the hook *)

Section HookClaims.
Context `{JsValue}.
Variables (Scope Update WriteFn JsError Promise StoreT Context Rest : Type).
Variable getScopeContext : option Scope -> Context.
Variable useContext : Context -> StoreT * Rest.
Variable READ_ATOM : StoreT -> Hook.Atom Scope WriteFn -> Hook.AtomState JsError Promise.
Variable WRITE_ATOM :
  StoreT -> Hook.Atom Scope WriteFn -> Update -> option JsError * StoreT.

Import Hook.

(** C7.  [setAtom] on an atom without a write function throws the error
    "not writable atom" to its caller; on an atom with a write function it
    does not throw it: it hands the update to the store, and ends as the
    write of the store ends. *)
Theorem setAtom_not_writable store (atom : Atom Scope WriteFn) update :
  (setAtom (Promise:=Promise) WRITE_ATOM store atom update = ThrowNew "not writable atom" <->
   write atom = None) /\
  (forall fn, write atom = Some fn ->
     setAtom (Promise:=Promise) WRITE_ATOM store atom update =
     match WRITE_ATOM store atom update with
     | (None, store') => Return store'
     | (Some err, _) => ThrowError err
     end).
Proof.
  unfold setAtom, isWritable. destruct (write atom) as [fn|]; split.
  - split; [|done]. by destruct (WRITE_ATOM store atom update) as [[err|] store'].
  - done.
  - done.
  - intros fn [=].
Qed.

(** C9.  [getAtomValue] throws the read error if the state holds one, else
    the read promise, else the write promise, else returns the value if the
    state has one, else throws "no atom value".  A write promise is thrown
    whether or not the state has a value: a write in flight hides a value
    already there. *)
Theorem getAtomValue_precedence store (atom : Atom Scope WriteFn) :
  (forall err, e (READ_ATOM store atom) = Some err ->
     getAtomValue READ_ATOM store atom = ThrowError err) /\
  (forall pr, e (READ_ATOM store atom) = None ->
     p (READ_ATOM store atom) = Some pr ->
     getAtomValue READ_ATOM store atom = ThrowPromise pr) /\
  (forall pr, e (READ_ATOM store atom) = None ->
     p (READ_ATOM store atom) = None ->
     w (READ_ATOM store atom) = Some pr ->
     getAtomValue READ_ATOM store atom = ThrowPromise pr) /\
  (forall x, e (READ_ATOM store atom) = None ->
     p (READ_ATOM store atom) = None ->
     w (READ_ATOM store atom) = None ->
     v (READ_ATOM store atom) = Some x ->
     getAtomValue READ_ATOM store atom = Return x) /\
  (e (READ_ATOM store atom) = None ->
     p (READ_ATOM store atom) = None ->
     w (READ_ATOM store atom) = None ->
     v (READ_ATOM store atom) = None ->
     getAtomValue READ_ATOM store atom = ThrowNew "no atom value") /\
  (forall pr x, e (READ_ATOM store atom) = None ->
     p (READ_ATOM store atom) = None ->
     w (READ_ATOM store atom) = Some pr ->
     v (READ_ATOM store atom) = Some x ->
     getAtomValue READ_ATOM store atom <> Return x).
Proof.
  unfold getAtomValue. split; [|split; [|split; [|split; [|split]]]]; intros;
    by repeat match goal with
       | E : _ = _ |- _ => rewrite E; clear E
       end.
Qed.

(** C10.  When the atom object has a ['scope'] property of its own, [useAtom]
    warns and goes on with that scope, whatever scope was passed as
    argument: the value it returns is read from the store found in the
    context of the atom's scope, and the [setAtom] it returns writes to that
    store. *)
Theorem atom_scope_overrides_argument (atom : Atom Scope WriteFn) s scopeArg :
  scope atom = Some s ->
  resolveScope atom scopeArg = (s, [deprecation]) /\
  storeOf getScopeContext useContext atom scopeArg =
    fst (useContext (getScopeContext s)) /\
  useAtom getScopeContext useContext READ_ATOM WRITE_ATOM atom scopeArg =
    (getAtomValue READ_ATOM (fst (useContext (getScopeContext s))) atom,
     setAtom (Promise:=Promise) WRITE_ATOM (fst (useContext (getScopeContext s))) atom) /\
  useAtom getScopeContext useContext READ_ATOM WRITE_ATOM atom scopeArg =
    useAtom getScopeContext useContext READ_ATOM WRITE_ATOM atom s.
Proof.
  intros Hs. unfold useAtom, storeOf, resolveScope. by rewrite Hs.
Qed.

(** Without such a property the argument is the scope. *)
Lemma resolveScope_argument (atom : Atom Scope WriteFn) scopeArg :
  scope atom = None -> resolveScope atom scopeArg = (scopeArg, []).
Proof. intros Hs. unfold resolveScope. by rewrite Hs. Qed.

End HookClaims.

Lemma atom_scope_overrides_argument_witness :
  let atom : Hook.Atom nat unit := Hook.mkAtom 0 (Some tt) (Some (Some 1)) in
  let getScopeContext : option nat -> option nat := fun s => s in
  let useContext : option nat -> nat * unit := fun c => (default 0 c, tt) in
  let READ_ATOM : nat -> Hook.Atom nat unit -> Hook.AtomState unit unit :=
    fun store _ => Hook.mkAtomState (H:=Scenarios.jsv_values) None None None
                     (Some (Scenarios.JNum (Z.of_nat store))) in
  let WRITE_ATOM : nat -> Hook.Atom nat unit -> unit -> option unit * nat :=
    fun store _ _ => (None, S store) in
  Hook.resolveScope atom (Some 2) = (Some 1, [Hook.deprecation]) /\
  Hook.storeOf getScopeContext useContext atom (Some 2) =
    fst (useContext (getScopeContext (Some 1))) /\
  Hook.useAtom getScopeContext useContext READ_ATOM WRITE_ATOM atom (Some 2) =
    (Hook.getAtomValue READ_ATOM (fst (useContext (getScopeContext (Some 1)))) atom,
     Hook.setAtom (Update:=unit) (Promise:=unit) WRITE_ATOM
       (fst (useContext (getScopeContext (Some 1)))) atom) /\
  Hook.useAtom getScopeContext useContext READ_ATOM WRITE_ATOM atom (Some 2) =
    Hook.useAtom getScopeContext useContext READ_ATOM WRITE_ATOM atom (Some 1).
Proof.
  apply (atom_scope_overrides_argument (H:=Scenarios.jsv_values)
           nat unit unit unit unit nat (option nat) unit).
  reflexivity.
Defined.

(** The store of the scope [n] holds [n], and a write returns the successor
    of the store it was given: with the atom's scope [1] and the argument
    [2], [useAtom] returns the value [1], and its [setAtom] writes to the
    store [1]. *)
Example atom_scope_store_is_used :
  let atom : Hook.Atom nat unit := Hook.mkAtom 0 (Some tt) (Some (Some 1)) in
  let getScopeContext : option nat -> option nat := fun s => s in
  let useContext : option nat -> nat * unit := fun c => (default 0 c, tt) in
  let READ_ATOM : nat -> Hook.Atom nat unit -> Hook.AtomState unit unit :=
    fun store _ => Hook.mkAtomState (H:=Scenarios.jsv_values) None None None
                     (Some (Scenarios.JNum (Z.of_nat store))) in
  let WRITE_ATOM : nat -> Hook.Atom nat unit -> unit -> option unit * nat :=
    fun store _ _ => (None, S store) in
  fst (Hook.useAtom getScopeContext useContext READ_ATOM WRITE_ATOM atom (Some 2)) =
    Hook.Return (Scenarios.JNum 1) /\
  snd (Hook.useAtom getScopeContext useContext READ_ATOM WRITE_ATOM atom (Some 2)) tt =
    Hook.Return 2.
Proof. split; reflexivity. Qed.

(** * The claim about asynchronous settlement *)

Section AsyncClaims.
Context `{JsValue}.
Variable JsError : Type.

Import Async.

(** The settlement of a computation that is not the latest changes nothing. *)
Lemma settle_superseded g (s : settlement JsError) r :
  g <> generation r -> settle g s r = r.
Proof. intros Hg. unfold settle. by rewrite decide_False. Qed.

Lemma settle_current (s : settlement JsError) r :
  settle (generation r) s r =
  match s with
  | Resolved v => mkCellRecord (Some v) None Settled (generation r)
  | Rejected err => mkCellRecord (cellValue r) (Some err) Errored (generation r)
  end.
Proof. unfold settle. by rewrite decide_True. Qed.


End AsyncClaims.

(** * Further facts about the core *)

Lemma stateOf_mkStore `{JsValue} (def : atomId -> Atom) x st r t :
  stateOf def x (mkStore (states st) r t) = stateOf def x st.
Proof. reflexivity. Qed.

Lemma stateOf_insert `{JsValue} (def : atomId -> Atom) x a s st r t :
  stateOf def x (mkStore (<[a := s]> (states st)) r t) =
  if decide (x = a) then s else stateOf def x st.
Proof.
  unfold stateOf at 1. cbn [states]. destruct (decide (x = a)) as [->|Hne].
  - by rewrite lookup_insert_eq.
  - by rewrite lookup_insert_ne.
Qed.

(** Runs the straight-line steps of a computation on the store. *)
Ltac run_store :=
  repeat progress
    (unfold bind, getAtomState, emit, addDependent, addListener, deleteListener,
       setValue, getValue, setRendered, ret, throw;
     cbv beta match).

(** Looks up a record through the updates made to the store. *)
Ltac simpl_stateOf :=
  repeat first
    [ rewrite stateOf_updState
    | rewrite stateOf_insert
    | rewrite stateOf_mkStore
    | rewrite decide_True by done
    | rewrite decide_False by done ];
  cbn [value_ listeners dependents].

Section MoreReadFacts.
Context `{JsValue} (def : atomId -> Atom).

(** ** What a read leaves alone *)

Lemma quiet_refl st : quiet def st st.
Proof.
  split; [done|]. split; [done|]. exists []. split; [by rewrite app_nil_r|by constructor].
Qed.

Lemma quiet_trans st1 st2 st3 :
  quiet def st1 st2 -> quiet def st2 st3 -> quiet def st1 st3.
Proof.
  intros (Hr1 & Hl1 & t1 & Ht1 & Hq1) (Hr2 & Hl2 & t2 & Ht2 & Hq2).
  split; [congruence|]. split; [intros x; by rewrite Hl2, Hl1|].
  exists (t1 ++ t2). split; [by rewrite Ht2, Ht1, app_assoc|].
  by apply Forall_app.
Qed.

Lemma quiet_emit e : isNotification e = false -> preserves (quiet def) (emit e).
Proof.
  intros He st. split; [done|]. split; [done|].
  exists [e]. split; [done|]. by repeat constructor.
Qed.

Lemma quiet_updState a f st :
  (forall s, listeners (f s) = listeners s) -> quiet def st (updState def a f st).
Proof.
  intros Hf. split; [done|]. split.
  - intros x. rewrite listenersOf_updState. case_decide; [subst; apply Hf|done].
  - exists []. split; [simpl; by rewrite app_nil_r|by constructor].
Qed.

Lemma quiet_trackedGet r atom a :
  (forall b, preserves (quiet def) (r b)) ->
  preserves (quiet def) (trackedGet def r atom a).
Proof.
  intros Hr. unfold trackedGet.
  apply preserves_bind; [apply quiet_trans|by apply quiet_emit|intros _].
  case_decide; [intros st; apply quiet_refl|].
  apply preserves_bind; [apply quiet_trans|intros st; by apply quiet_updState|intros _].
  apply preserves_bind; [apply quiet_trans|intros st; by apply quiet_updState|intros _].
  apply Hr.
Qed.

Lemma quiet_readAtom f a : preserves (quiet def) (readAtom def f a).
Proof.
  apply preserves_readAtom.
  - apply quiet_refl.
  - apply quiet_trans.
  - intros b st. by apply quiet_updState.
  - intros b. by apply quiet_emit.
  - intros b v st. by apply quiet_updState.
  - apply quiet_trackedGet.
Qed.

(** ** What a read stores *)

Lemma readAtom_S f a :
  readAtom def (S f) a =
  (getAtomState def a;;
   emit (EvRead a);;
   v <- runRead (trackedGet def (readAtom def f) a) (read (def a));;
   setValue def a v;;
   ret v).
Proof. reflexivity. Qed.

Lemma readAtom_value fuel a st v st' :
  readAtom def fuel a st = Ok v st' -> valueOf def a st' = v.
Proof.
  destruct fuel as [|f]; [discriminate|]. rewrite readAtom_S. intros Hrun.
  apply bind_Ok in Hrun as ([] & st1 & _ & Hrun).
  apply bind_Ok in Hrun as ([] & st2 & _ & Hrun).
  apply bind_Ok in Hrun as (u & st3 & _ & Hrun).
  apply bind_Ok in Hrun as ([] & st4 & E4 & Hrun).
  injection Hrun as <- <-. injection E4 as <-.
  rewrite valueOf_updState. by rewrite decide_True.
Qed.

(** ** Reading a derived atom *)

Lemma readAtom_derived d p g f st :
  derivedFrom def d p g -> passthrough def p ->
  exists st',
    readAtom def (S (S f)) d st = Ok (g (valueOf def p st)) st' /\
    trace st' = trace st ++ [EvRead d; EvGet d p; EvRead p; EvGet p p] /\
    rendered st' = rendered st /\
    stateOf def d st' =
      mkAtomState (g (valueOf def p st)) (listenersOf def d st) (dependentsOf def d st) /\
    stateOf def p st' =
      mkAtomState (valueOf def p st) (listenersOf def p st)
        (setAdd d (dependentsOf def p st)) /\
    forall x, x <> d -> x <> p -> stateOf def x st' = stateOf def x st.
Proof.
  intros [Hne Hread] Hp. rewrite readAtom_S, Hread. cbn [runRead].
  unfold trackedGet. run_store. rewrite decide_False by done. run_store.
  rewrite readAtom_passthrough by done. run_store.
  match goal with
  | |- context [valueOf def p ?s] =>
      assert (valueOf def p s = valueOf def p st) as -> by (unfold valueOf; by simpl_stateOf)
  end.
  eexists. split; [reflexivity|].
  split; [cbn [trace updState]; by rewrite <- !app_assoc|]. split; [done|].
  split; [|split].
  - by simpl_stateOf.
  - by simpl_stateOf.
  - intros x Hxd Hxp. by simpl_stateOf.
Qed.

End MoreReadFacts.

Section MoreNotifyFacts.
Context `{JsValue} (def : atomId -> Atom).

(** ** The edges a notification and a write add *)

Lemma edgesGrow_notify f a : preserves (edgesGrow def) (notify def f a).
Proof.
  apply preserves_notify.
  - apply edgesGrow_refl.
  - apply edgesGrow_trans.
  - intros b st. by apply edgesGrow_updState.
  - intros l v st. apply edgesGrow_setRendered.
  - intros b st. by apply edgesGrow_emit.
  - intros b l st. by apply edgesGrow_emit.
  - intros f' b. apply edgesGrow_readAtom.
Qed.

Lemma edgesGrow_writeAtom f a v : preserves (edgesGrow def) (writeAtom def f a v).
Proof.
  apply preserves_writeAtom.
  - apply edgesGrow_refl.
  - apply edgesGrow_trans.
  - intros b st. by apply edgesGrow_updState.
  - intros l u st. apply edgesGrow_setRendered.
  - intros b st. by apply edgesGrow_emit.
  - intros b l st. by apply edgesGrow_emit.
  - intros f' b. apply edgesGrow_readAtom.
  - intros b u st. by apply edgesGrow_updState.
Qed.

Lemma edgesGrow_mount f a l : preserves (edgesGrow def) (mount def f a l).
Proof.
  unfold mount.
  apply preserves_bind; [apply edgesGrow_trans|intros st; by apply edgesGrow_updState|intros _].
  apply preserves_bind; [apply edgesGrow_trans|intros st; by apply edgesGrow_updState|intros _].
  apply preserves_callback.
  - apply edgesGrow_trans.
  - intros l' v st. apply edgesGrow_setRendered.
  - intros f' b. apply edgesGrow_readAtom.
Qed.

Lemma edgesGrow_noSelfDependent st st' :
  edgesGrow def st st' -> noSelfDependent def st -> noSelfDependent def st'.
Proof.
  intros (t & _ & Hed) Hno a Ha. apply Hed in Ha as [Ha|[_ Hne]]; [by apply (Hno a)|done].
Qed.

(** ** A dependent keeps its position *)

Lemma dependentsExtended_refl st : dependentsExtended def st st.
Proof. by intros x. Qed.

Lemma dependentsExtended_trans st1 st2 st3 :
  dependentsExtended def st1 st2 -> dependentsExtended def st2 st3 ->
  dependentsExtended def st1 st3.
Proof. intros H1 H2 x. etrans; [apply H1|apply H2]. Qed.

Lemma dependentsExtended_updState a f st :
  (forall s, dependents s `prefix_of` dependents (f s)) ->
  dependentsExtended def st (updState def a f st).
Proof.
  intros Hf x. rewrite dependentsOf_updState. case_decide; [subst; apply Hf|done].
Qed.

Lemma prefix_of_setAdd {A} `{EqDecision A} (x : A) s : s `prefix_of` setAdd x s.
Proof. unfold setAdd. case_decide; [done|]. by apply prefix_app_r. Qed.

Lemma dependentsExtended_same st st' :
  (forall x, dependentsOf def x st' = dependentsOf def x st) ->
  dependentsExtended def st st'.
Proof. intros Heq x. by rewrite Heq. Qed.

Lemma dependentsExtended_emit e : preserves (dependentsExtended def) (emit e).
Proof. intros st. by apply dependentsExtended_same. Qed.

Lemma dependentsExtended_setRendered l v :
  preserves (dependentsExtended def) (setRendered l v).
Proof. intros st. by apply dependentsExtended_same. Qed.

Lemma dependentsExtended_trackedGet r atom a :
  (forall b, preserves (dependentsExtended def) (r b)) ->
  preserves (dependentsExtended def) (trackedGet def r atom a).
Proof.
  intros Hr. unfold trackedGet.
  apply preserves_bind;
    [apply dependentsExtended_trans|apply dependentsExtended_emit|intros _].
  case_decide; [intros st; apply dependentsExtended_refl|].
  apply preserves_bind;
    [apply dependentsExtended_trans|intros st; by apply dependentsExtended_updState|intros _].
  apply preserves_bind; [apply dependentsExtended_trans| |intros _; apply Hr].
  intros st. apply dependentsExtended_updState. intros s. apply prefix_of_setAdd.
Qed.

Lemma dependentsExtended_readAtom f a :
  preserves (dependentsExtended def) (readAtom def f a).
Proof.
  apply preserves_readAtom.
  - apply dependentsExtended_refl.
  - apply dependentsExtended_trans.
  - intros b st. by apply dependentsExtended_updState.
  - intros b. apply dependentsExtended_emit.
  - intros b v st. by apply dependentsExtended_updState.
  - apply dependentsExtended_trackedGet.
Qed.

Lemma dependentsExtended_notify f a :
  preserves (dependentsExtended def) (notify def f a).
Proof.
  apply preserves_notify.
  - apply dependentsExtended_refl.
  - apply dependentsExtended_trans.
  - intros b st. by apply dependentsExtended_updState.
  - apply dependentsExtended_setRendered.
  - intros b. apply dependentsExtended_emit.
  - intros b l. apply dependentsExtended_emit.
  - intros f' b. apply dependentsExtended_readAtom.
Qed.

Lemma dependentsExtended_lookup st st' x i y :
  dependentsExtended def st st' ->
  dependentsOf def x st !! i = Some y -> dependentsOf def x st' !! i = Some y.
Proof. intros Hext Hl. by eapply prefix_lookup_Some. Qed.

(** ** [notify] raises nothing *)

Lemma onlyOutOfFuel_callback f a l : onlyOutOfFuel (callback def f a l).
Proof.
  apply onlyOutOfFuel_bind; [apply onlyOutOfFuel_readAtom|by intros ???? [=]].
Qed.

Lemma onlyOutOfFuel_forEachListener f : forall a i, onlyOutOfFuel (forEachListener def f a i).
Proof.
  induction f as [|f IH]; intros a i st e st'.
  { unfold forEachListener, throw. by intros [= <- _]. }
  rewrite forEachListener_S. destruct (listeners (stateOf def a st) !! i) as [l|]; [|done].
  revert st e st'. fold (onlyOutOfFuel (A:=unit)).
  apply onlyOutOfFuel_bind; [by intros ??? [=]|intros _].
  apply onlyOutOfFuel_bind; [apply onlyOutOfFuel_callback|intros _; apply IH].
Qed.

Lemma onlyOutOfFuel_notify_forEachDependent f :
  (forall a, onlyOutOfFuel (notify def f a)) /\
  (forall a i, onlyOutOfFuel (forEachDependent def f a i)).
Proof.
  induction f as [|f [IHn IHd]]; split.
  - intros a st e st'. unfold notify, throw. by intros [= <- _].
  - intros a i st e st'. unfold forEachDependent, throw. by intros [= <- _].
  - intros a. rewrite notify_S.
    do 2 (apply onlyOutOfFuel_bind; [by intros ??? [=]|intros _]).
    apply onlyOutOfFuel_bind; [apply IHd|intros _; apply onlyOutOfFuel_forEachListener].
  - intros a i st e st'. rewrite forEachDependent_S.
    destruct (dependents (stateOf def a st) !! i) as [d|]; [|done].
    revert st e st'. fold (onlyOutOfFuel (A:=unit)).
    apply onlyOutOfFuel_bind; [|intros _; apply IHd].
    case_decide; [by intros ??? [=]|apply IHn].
Qed.

End MoreNotifyFacts.

Section NotifyCycle.
Context `{JsValue} (def : atomId -> Atom).

(** ** A cycle of dependents is followed without end *)

Lemma dependentsCycle_extended cyc st st' :
  dependentsExtended def st st' -> dependentsCycle def cyc st -> dependentsCycle def cyc st'.
Proof.
  intros Hext Hcyc x Hx. destruct (Hcyc x Hx) as (i & y & Hl & Hne & Hy).
  exists i, y. split; [by eapply dependentsExtended_lookup|done].
Qed.

Lemma notify_S_store f a st :
  notify def (S f) a st =
  (forEachDependent def f a 0;; forEachListener def f a 0)
    (mkStore (<[a := stateOf def a st]> (states st)) (rendered st)
       (trace st ++ [EvNotify a])).
Proof. reflexivity. Qed.

Lemma notify_forEachDependent_cycle cyc f :
  (forall st a, dependentsCycle def cyc st -> cyc a -> isOutOfFuel (notify def f a st)) /\
  (forall st a i y j,
     dependentsCycle def cyc st ->
     dependentsOf def a st !! i = Some y -> y <> a -> cyc y -> j <= i ->
     isOutOfFuel (forEachDependent def f a j st)).
Proof.
  induction f as [|f [IHn IHd]]; split.
  - done.
  - done.
  - intros st a Hcyc Ha. rewrite notify_S_store.
    apply (isOutOfFuel_bind_l def).
    match goal with |- isOutOfFuel (forEachDependent _ _ _ _ ?s) => set (st1 := s) end.
    assert (dependentsExtended def st st1) as Hext.
    { intros x. unfold st1, dependentsOf. by simpl_stateOf; case_decide; subst. }
    destruct (Hcyc a Ha) as (i & y & Hl & Hne & Hy).
    apply (IHd st1 a i y 0).
    + by eapply dependentsCycle_extended.
    + by eapply dependentsExtended_lookup.
    + done.
    + done.
    + lia.
  - intros st a i y j Hcyc Hl Hne Hy Hle. rewrite forEachDependent_S.
    destruct (decide (j = i)) as [->|Hji].
    + unfold dependentsOf in Hl. rewrite Hl. apply (isOutOfFuel_bind_l def).
      rewrite decide_False by done. by apply IHn.
    + destruct (dependents (stateOf def a st) !! j) as [d|] eqn:Hj.
      * rewrite isOutOfFuel_bind.
        assert (preserves (dependentsExtended def)
                  (if decide (d = a) then ret tt else notify def f d)) as Hpres.
        { case_decide; [intros s; apply dependentsExtended_refl|].
          apply dependentsExtended_notify. }
        assert (onlyOutOfFuel (if decide (d = a) then ret tt else notify def f d)) as Hoof.
        { case_decide; [by intros ??? [=]|]. apply onlyOutOfFuel_notify_forEachDependent. }
        specialize (Hpres st). specialize (Hoof st).
        destruct ((if decide (d = a) then ret tt else notify def f d) st) as [[] st2|e st2].
        -- apply (IHd st2 a i y (S j)); [|by eapply dependentsExtended_lookup|done|done|lia].
           by eapply dependentsCycle_extended.
        -- by rewrite (Hoof e st2 eq_refl).
      * apply lookup_ge_None in Hj. apply lookup_lt_Some in Hl.
        unfold dependentsOf in Hl. lia.
Qed.

End NotifyCycle.

Section RenderFacts.
Context `{JsValue} (def : atomId -> Atom).

(** ** What the listeners of a primitive atom render *)

Lemma componentState_lookup l st st' :
  rendered st' !! l = rendered st !! l -> componentState l st' = componentState l st.
Proof. unfold componentState. by intros ->. Qed.

Lemma setState_value v prev : isFunction v = false -> setState v prev = v.
Proof. unfold setState. by intros ->. Qed.

Lemma forEachListener_passthrough_rendered p :
  passthrough def p ->
  forall rest i fuel st,
    drop i (listenersOf def p st) = rest ->
    length rest + 2 <= fuel ->
    exists st',
      forEachListener def fuel p i st = Ok tt st' /\
      (forall x, stateOf def x st' = stateOf def x st) /\
      (NoDup rest -> forall l, l ∈ rest ->
         rendered st' !! l =
         Some (setState (valueOf def p st) (componentState l st))) /\
      (forall l, l ∉ rest -> rendered st' !! l = rendered st !! l).
Proof.
  intros Hp. induction rest as [|l rest IH]; intros i fuel st Hdrop Hfuel.
  - destruct fuel as [|f]; [lia|]. rewrite forEachListener_S.
    assert (listeners (stateOf def p st) !! i = None) as ->.
    { apply lookup_ge_None. by apply drop_nil_inv. }
    exists st. split; [done|]. split; [done|]. split; [|done].
    intros _ l Hl. by apply elem_of_nil in Hl.
  - destruct fuel as [|[|f]]; [simpl in Hfuel; lia..|]. simpl in Hfuel.
    assert (listeners (stateOf def p st) !! i = Some l) as Hl.
    { pose proof (lookup_drop (listenersOf def p st) i 0) as E.
      rewrite Hdrop, Nat.add_0_r in E. symmetry. exact E. }
    rewrite forEachListener_S, Hl.
    unfold bind at 1, emit. cbv beta match.
    unfold bind at 1. rewrite callback_passthrough by done.
    match goal with |- context [forEachListener _ _ _ _ ?s] => set (st1 := s) end.
    assert (forall x, stateOf def x st1 = stateOf def x st) as Hst1.
    { intros x. unfold st1. by rewrite stateOf_touch. }
    assert (rendered st1 =
            <[l := setState (valueOf def p st) (componentState l st)]> (rendered st))
      as Hr1 by done.
    destruct (IH (S i) (S f) st1) as (st' & Hrun & Hst & Hin & Hout).
    + unfold listenersOf. rewrite Hst1. fold (listenersOf def p st).
      replace (S i) with (i + 1) by lia.
      by rewrite <- drop_drop, Hdrop.
    + lia.
    + exists st'. split; [done|]. split; [intros x; by rewrite Hst|].
      assert (valueOf def p st1 = valueOf def p st) as Hv1.
      { unfold valueOf. by rewrite Hst1. }
      split.
      * intros Hnd l' Hl'. apply NoDup_cons in Hnd as [Hnl Hnd].
        destruct (decide (l' ∈ rest)) as [Hr|Hr].
        -- rewrite (Hin Hnd l' Hr), Hv1. do 2 f_equal.
           apply componentState_lookup. rewrite Hr1.
           apply lookup_insert_ne. by intros ->.
        -- rewrite (Hout l' Hr), Hr1. apply elem_of_cons in Hl' as [->|?]; [|done].
           by rewrite lookup_insert_eq.
      * intros l' Hl'. apply not_elem_of_cons in Hl' as [Hne Hr].
        rewrite (Hout l' Hr), Hr1. by rewrite lookup_insert_ne.
Qed.

(** A write of a primitive atom nobody depends on: what is stored, notified
    and rendered. *)
Lemma writeAtom_primitive_rendered p i fuel u st :
  def p = atom p (inr i) None ->
  dependentsOf def p st = [] ->
  length (listenersOf def p st) + 4 <= fuel ->
  exists st',
    writeAtom def fuel p u st = Ok tt st' /\
    valueOf def p st' = nextValue def p u st /\
    (NoDup (listenersOf def p st) -> forall l, l ∈ listenersOf def p st ->
       rendered st' !! l =
       Some (setState (nextValue def p u st) (componentState l st))) /\
    (forall l, l ∉ listenersOf def p st -> rendered st' !! l = rendered st !! l) /\
    (forall x, x <> p -> stateOf def x st' = stateOf def x st).
Proof.
  intros Hdef Hdep Hfuel. destruct fuel as [|[|[|f]]]; [lia..|].
  assert (passthrough def p) as Hp by (by eapply passthrough_atom).
  rewrite (writeAtom_primitive def p i) by done.
  unfold bind at 1, setValue. cbv beta match.
  rewrite notify_S_store.
  match goal with |- context [bind _ _ ?s] => set (st1 := s) end.
  assert (forall x, x <> p -> stateOf def x st1 = stateOf def x st) as Hoth.
  { intros x Hx. unfold st1. by simpl_stateOf. }
  assert (stateOf def p st1 =
          mkAtomState (nextValue def p u st) (listenersOf def p st) []) as Hp1.
  { unfold st1. simpl_stateOf. by rewrite <- Hdep. }
  unfold bind. rewrite forEachDependent_S, Hp1. cbn [dependents lookup list_lookup].
  destruct (forEachListener_passthrough_rendered p Hp (listenersOf def p st) 0 (S f) st1)
    as (st' & Hrun & Hst & Hin & Hout).
  - unfold listenersOf. by rewrite Hp1.
  - lia.
  - rewrite Hrun. exists st'. split; [done|].
    assert (valueOf def p st1 = nextValue def p u st) as Hv1.
    { unfold valueOf. by rewrite Hp1. }
    split; [unfold valueOf; by rewrite Hst, Hp1|].
    split; [intros Hnd l Hl; by rewrite (Hin Hnd l Hl), Hv1|].
    split; [intros l Hl; by rewrite (Hout l Hl)|].
    intros x Hx. rewrite Hst. by apply Hoth.
Qed.

(** ** Subscribing and unsubscribing *)

Lemma mount_registered fuel a l st st' :
  mount def fuel a l st = Ok tt st' ->
  l ∈ listenersOf def a st' /\
  rendered st' !! l = Some (setState (valueOf def a st') (componentState l st)).
Proof.
  unfold mount. intros Hrun.
  apply bind_Ok in Hrun as ([] & st1 & E1 & Hrun). injection E1 as <-.
  apply bind_Ok in Hrun as ([] & st2 & E2 & Hrun). injection E2 as <-.
  unfold callback in Hrun.
  apply bind_Ok in Hrun as (v & st3 & Hread & Hset). injection Hset as <-.
  match type of Hread with
  | readAtom _ _ _ ?s = _ => pose proof (quiet_readAtom def fuel a s) as Hq
  end.
  rewrite Hread in Hq. cbn [finalStore] in Hq. destruct Hq as (Hrd & Hls & _).
  pose proof (readAtom_value def fuel a _ v st3 Hread) as Hv.
  split.
  - unfold listenersOf in *. rewrite stateOf_mkStore, Hls. simpl_stateOf.
    apply elem_of_setAdd. by right.
  - cbn [rendered]. rewrite lookup_insert_eq. do 2 f_equal.
    + unfold valueOf in *. by rewrite stateOf_mkStore.
    + apply componentState_lookup. by rewrite Hrd.
Qed.

Lemma unmount_listeners a l st :
  listenersOf def a (finalStore (unmount def a l st)) =
  setDelete l (listenersOf def a st).
Proof. unfold unmount, deleteListener, listenersOf. cbn [finalStore]. by simpl_stateOf. Qed.

Lemma elem_of_setDelete {A} `{EqDecision A} (x y : A) s :
  y ∈ setDelete x s <-> y ∈ s /\ y <> x.
Proof. unfold setDelete. rewrite list_elem_of_filter. tauto. Qed.

Lemma setDelete_setAdd {A} `{EqDecision A} (x : A) s :
  x ∉ s -> setDelete x (setAdd x s) = s.
Proof.
  intros Hx. unfold setAdd, setDelete. rewrite decide_False by done.
  rewrite filter_app. rewrite filter_cons_False by (intros Hne; by apply Hne).
  rewrite filter_nil, app_nil_r.
  induction s as [|y s IH]; [done|].
  apply not_elem_of_cons in Hx as [Hne Hx].
  rewrite filter_cons_True by done. by rewrite IH.
Qed.

End RenderFacts.

Section DerivedRenderFacts.
Context `{JsValue} (def : atomId -> Atom).

(** ** What the listeners of a derived atom render *)

Lemma callback_derived d p g f l st :
  derivedFrom def d p g -> passthrough def p ->
  d ∈ dependentsOf def p st ->
  exists st',
    callback def (S (S f)) d l st = Ok tt st' /\
    trace st' = trace st ++ [EvRead d; EvGet d p; EvRead p; EvGet p p] /\
    rendered st' =
      <[l := setState (g (valueOf def p st)) (componentState l st)]> (rendered st) /\
    stateOf def d st' =
      mkAtomState (g (valueOf def p st)) (listenersOf def d st) (dependentsOf def d st) /\
    forall x, x <> d -> stateOf def x st' = stateOf def x st.
Proof.
  intros Hd Hp Hin.
  destruct (readAtom_derived def d p g f st Hd Hp) as (st1 & Hrun & Htr & Hr & Hsd & Hsp & Hoth).
  unfold callback, bind. rewrite Hrun. unfold setRendered.
  eexists. split; [reflexivity|]. cbn [trace rendered].
  split; [done|].
  split; [rewrite Hr; do 2 f_equal; apply componentState_lookup; by rewrite Hr|].
  split; [by rewrite stateOf_mkStore|].
  intros x Hx. rewrite stateOf_mkStore. destruct (decide (x = p)) as [->|Hxp].
  - rewrite Hsp. unfold setAdd. rewrite decide_True by done.
    unfold valueOf, listenersOf, dependentsOf. apply stateOf_eta.
  - by apply Hoth.
Qed.

Lemma forEachListener_derived d p g :
  derivedFrom def d p g -> passthrough def p ->
  forall rest i fuel st,
    d ∈ dependentsOf def p st ->
    drop i (listenersOf def d st) = rest ->
    length rest + 3 <= fuel ->
    exists st',
      forEachListener def fuel d i st = Ok tt st' /\
      trace st' = trace st ++ derivedListenerEvents d p rest /\
      listenersOf def d st' = listenersOf def d st /\
      dependentsOf def d st' = dependentsOf def d st /\
      (forall x, x <> d -> stateOf def x st' = stateOf def x st) /\
      (NoDup rest -> forall l, l ∈ rest ->
         rendered st' !! l =
         Some (setState (g (valueOf def p st)) (componentState l st))) /\
      (forall l, l ∉ rest -> rendered st' !! l = rendered st !! l).
Proof.
  intros Hd Hp. pose proof Hd as [Hne _].
  induction rest as [|l rest IH]; intros i fuel st Hin Hdrop Hfuel.
  - destruct fuel as [|f]; [lia|]. rewrite forEachListener_S.
    assert (listeners (stateOf def d st) !! i = None) as ->.
    { apply lookup_ge_None. by apply drop_nil_inv. }
    exists st. split; [done|]. split; [by rewrite app_nil_r|].
    do 3 (split; [done|]). split; [|done].
    intros _ l Hl. by apply elem_of_nil in Hl.
  - destruct fuel as [|[|[|f]]]; [simpl in Hfuel; lia..|]. simpl in Hfuel.
    assert (listeners (stateOf def d st) !! i = Some l) as Hl.
    { pose proof (lookup_drop (listenersOf def d st) i 0) as E.
      rewrite Hdrop, Nat.add_0_r in E. symmetry. exact E. }
    rewrite forEachListener_S, Hl.
    unfold bind at 1, emit. cbv beta match.
    match goal with |- context [bind _ _ ?s] => set (st0 := s) end.
    assert (forall x, stateOf def x st0 = stateOf def x st) as Hst0 by done.
    destruct (callback_derived d p g f l st0 Hd Hp) as (st1 & Hrun & Htr & Hr & Hsd & Hoth).
    { unfold dependentsOf. by rewrite Hst0. }
    unfold bind at 1. rewrite Hrun.
    assert (valueOf def p st0 = valueOf def p st) as Hv0.
    { unfold valueOf. by rewrite Hst0. }
    assert (listenersOf def d st1 = listenersOf def d st) as Hls1.
    { unfold listenersOf. rewrite Hsd. cbn [listeners]. unfold listenersOf. by rewrite Hst0. }
    assert (dependentsOf def d st1 = dependentsOf def d st) as Hds1.
    { unfold dependentsOf. rewrite Hsd. cbn [dependents]. unfold dependentsOf. by rewrite Hst0. }
    assert (stateOf def p st1 = stateOf def p st) as Hp1.
    { rewrite Hoth by done. apply Hst0. }
    destruct (IH (S i) (S (S f)) st1) as (st' & Hrun' & Htr' & Hls' & Hds' & Hoth' & Hin' & Hout').
    + unfold dependentsOf. by rewrite Hp1.
    + rewrite Hls1. replace (S i) with (i + 1) by lia. by rewrite <- drop_drop, Hdrop.
    + lia.
    + assert (valueOf def p st1 = valueOf def p st) as Hv1.
      { unfold valueOf. by rewrite Hp1. }
      exists st'. split; [done|]. split.
      { rewrite Htr', Htr. unfold st0. cbn [trace]. unfold derivedListenerEvents.
        cbn [map concat]. by rewrite <- !app_assoc. }
      split; [congruence|]. split; [congruence|].
      split; [intros x Hx; by rewrite Hoth', Hoth, Hst0|].
      split.
      * intros Hnd l' Hl'. apply NoDup_cons in Hnd as [Hnl Hnd].
        destruct (decide (l' ∈ rest)) as [Hr'|Hr'].
        -- rewrite (Hin' Hnd l' Hr'), Hv1. do 2 f_equal.
           apply componentState_lookup. rewrite Hr.
           rewrite lookup_insert_ne by (by intros ->). done.
        -- rewrite (Hout' l' Hr'), Hr. apply elem_of_cons in Hl' as [->|?]; [|done].
           by rewrite lookup_insert_eq, Hv0.
      * intros l' Hl'. apply not_elem_of_cons in Hl' as [Hne' Hr'].
        rewrite (Hout' l' Hr'), Hr. by rewrite lookup_insert_ne.
Qed.

(** A write of a primitive atom [p] whose only dependent is [d], derived from
    it: [d] is notified, and each of its listeners reads [d] again. *)
Lemma writeAtom_derived_rendered d p g i fuel u st :
  derivedFrom def d p g ->
  def p = atom p (inr i) None ->
  dependentsOf def p st = [d] ->
  dependentsOf def d st = [] ->
  listenersOf def p st = [] ->
  length (listenersOf def d st) + 7 <= fuel ->
  exists st',
    writeAtom def fuel p u st = Ok tt st' /\
    newEvents st st' =
      [EvNotify p; EvNotify d] ++ derivedListenerEvents d p (listenersOf def d st) /\
    valueOf def p st' = nextValue def p u st /\
    (NoDup (listenersOf def d st) -> forall l, l ∈ listenersOf def d st ->
       rendered st' !! l =
       Some (setState (g (nextValue def p u st)) (componentState l st))) /\
    (forall l, l ∉ listenersOf def d st -> rendered st' !! l = rendered st !! l).
Proof.
  intros Hd Hdef Hdp Hdd Hlp Hfuel. pose proof Hd as [Hne _].
  destruct fuel as [|[|[|[|[|f]]]]]; [lia..|].
  assert (passthrough def p) as Hp by (by eapply passthrough_atom).
  rewrite (writeAtom_primitive def p i) by done.
  unfold bind at 1, setValue. cbv beta match.
  rewrite notify_S_store.
  match goal with |- context [bind _ _ ?s] => set (st1 := s) end.
  assert (forall x, x <> p -> stateOf def x st1 = stateOf def x st) as Hoth1.
  { intros x Hx. unfold st1. by simpl_stateOf. }
  assert (stateOf def p st1 = mkAtomState (nextValue def p u st) [] [d]) as Hp1.
  { unfold st1. simpl_stateOf. by rewrite <- Hdp, <- Hlp. }
  assert (trace st1 = trace st ++ [EvNotify p]) as Ht1 by done.
  assert (rendered st1 = rendered st) as Hr1 by done.
  unfold bind at 1. rewrite forEachDependent_S, Hp1.
  cbn [dependents lookup list_lookup]. rewrite decide_False by done.
  unfold bind at 1. rewrite notify_S_store.
  match goal with |- context [bind _ _ ?s] => set (st2 := s) end.
  assert (forall x, stateOf def x st2 = stateOf def x st1) as Hst2.
  { intros x. unfold st2. by rewrite stateOf_touch. }
  unfold bind at 1. rewrite forEachDependent_S.
  assert (dependents (stateOf def d st2) = []) as ->.
  { rewrite Hst2, Hoth1 by done. exact Hdd. }
  cbn [lookup list_lookup].
  destruct (forEachListener_derived d p g Hd Hp (listenersOf def d st) 0 (S f) st2)
    as (st3 & Hrun & Htr & Hls & Hds & Hoth & Hin & Hout).
  { unfold dependentsOf. rewrite Hst2, Hp1. cbn [dependents]. by apply list_elem_of_singleton. }
  { unfold listenersOf. by rewrite Hst2, Hoth1. }
  { lia. }
  rewrite Hrun. rewrite forEachDependent_S.
  assert (stateOf def p st3 = stateOf def p st1) as Hp3.
  { rewrite Hoth by done. apply Hst2. }
  rewrite Hp3, Hp1. cbn [dependents lookup list_lookup].
  rewrite forEachListener_S, Hp3, Hp1. cbn [listeners lookup list_lookup].
  assert (valueOf def p st2 = nextValue def p u st) as Hv2.
  { unfold valueOf. by rewrite Hst2, Hp1. }
  exists st3. split; [done|]. split; [|split; [|split]].
  - apply newEvents_app. rewrite Htr. unfold st2. cbn [trace]. rewrite Ht1.
    by rewrite <- !app_assoc.
  - unfold valueOf. by rewrite Hp3, Hp1.
  - intros Hnd l Hl. by rewrite (Hin Hnd l Hl), Hv2.
  - intros l Hl. by rewrite (Hout l Hl).
Qed.

End DerivedRenderFacts.

Section UntrackedFacts.
Context `{JsValue} (def : atomId -> Atom).

(** ** A write when no component is subscribed *)

Lemma graphUntouched_refl st : graphUntouched def st st.
Proof. by intros Hno. Qed.

Lemma graphUntouched_trans st1 st2 st3 :
  graphUntouched def st1 st2 -> graphUntouched def st2 st3 -> graphUntouched def st1 st3.
Proof.
  intros H1 H2 Hno. destruct (H1 Hno) as (Hno2 & Hd2 & Hr2).
  destruct (H2 Hno2) as (Hno3 & Hd3 & Hr3).
  split; [done|]. split; [intros x; by rewrite Hd3, Hd2|congruence].
Qed.

Lemma graphUntouched_updState a f st :
  (forall s, listeners (f s) = listeners s /\ dependents (f s) = dependents s) ->
  graphUntouched def st (updState def a f st).
Proof.
  intros Hf Hno. split; [|split; [|done]].
  - intros x. rewrite listenersOf_updState. case_decide; [|apply Hno].
    subst. rewrite (proj1 (Hf _)). apply Hno.
  - intros x. rewrite dependentsOf_updState. case_decide; [|done].
    subst. apply Hf.
Qed.

Lemma graphUntouched_emit e : preserves (graphUntouched def) (emit e).
Proof. by intros st Hno. Qed.

Lemma graphUntouched_forEachListener f a i :
  preserves (graphUntouched def) (forEachListener def f a i).
Proof.
  intros st Hno. destruct f as [|f]; [by apply graphUntouched_refl|].
  rewrite forEachListener_S. pose proof (Hno a) as Ha. unfold listenersOf in Ha.
  rewrite Ha. by apply graphUntouched_refl.
Qed.

Lemma graphUntouched_notify_forEachDependent f :
  (forall a, preserves (graphUntouched def) (notify def f a)) /\
  (forall a i, preserves (graphUntouched def) (forEachDependent def f a i)).
Proof.
  induction f as [|f [IHn IHd]]; (split; [intros a|intros a i]).
  - intros st. apply graphUntouched_refl.
  - intros st. apply graphUntouched_refl.
  - rewrite notify_S.
    apply preserves_bind; [apply graphUntouched_trans| |intros _].
    { intros st. by apply graphUntouched_updState. }
    apply preserves_bind; [apply graphUntouched_trans|apply graphUntouched_emit|intros _].
    apply preserves_bind; [apply graphUntouched_trans|apply IHd|intros _].
    apply graphUntouched_forEachListener.
  - intros st. rewrite forEachDependent_S.
    destruct (dependents (stateOf def a st) !! i) as [d|]; [|apply graphUntouched_refl].
    revert st. fold (preserves (graphUntouched def) (A:=unit)).
    apply preserves_bind; [apply graphUntouched_trans| |intros _; apply IHd].
    case_decide; [intros st; apply graphUntouched_refl|apply IHn].
Qed.

Lemma graphUntouched_writeAtom f : forall a v,
  preserves (graphUntouched def) (writeAtom def f a v).
Proof.
  induction f as [|f IH]; intros a v.
  { intros st. apply graphUntouched_refl. }
  rewrite writeAtom_S.
  apply preserves_bind; [apply graphUntouched_trans| |intros _].
  { intros st. by apply graphUntouched_updState. }
  destruct (write (def a)) as [w|]; [|intros st; apply graphUntouched_refl].
  apply preserves_runWrite.
  - apply graphUntouched_refl.
  - apply graphUntouched_trans.
  - intros b st. by apply graphUntouched_updState.
  - intros b u. unfold setFrom. case_decide; [|apply IH].
    apply preserves_bind; [apply graphUntouched_trans| |intros _].
    + intros st. by apply graphUntouched_updState.
    + apply graphUntouched_notify_forEachDependent.
Qed.

End UntrackedFacts.

(** * More properties of the core *)

Section CoreProperties.
Context `{JsValue} (def : atomId -> Atom).

(** X1.  The first read of a primitive atom, whatever its write function, returns
    the initial value given to [atom] and leaves it stored. *)
Theorem read_primitive_first_time p i w f st :
  def p = atom p (inr i) w ->
  states st !! p = None ->
  exists st', readAtom def (S f) p st = Ok i st' /\ valueOf def p st' = i.
Proof.
  intros Hdef Hnone.
  assert (valueOf def p st = i) as Hv.
  { unfold valueOf, stateOf, freshState. by rewrite Hnone, Hdef. }
  rewrite readAtom_passthrough by (by eapply passthrough_atom).
  eexists. split; [by rewrite Hv|].
  unfold valueOf in *. by rewrite stateOf_touch.
Qed.

(** X2.  A read that returns [v] leaves [v] stored for the atom.  It is silent:
    it calls no listener and enters no [notify], and it changes neither what
    a component shows nor who listens to an atom. *)
Theorem read_stores_and_is_silent fuel a st v st' :
  readAtom def fuel a st = Ok v st' ->
  valueOf def a st' = v /\
  rendered st' = rendered st /\
  (forall x, listenersOf def x st' = listenersOf def x st) /\
  Forall (fun e => isNotification e = false) (newEvents st st').
Proof.
  intros Hrun. split; [by eapply readAtom_value|].
  pose proof (quiet_readAtom def fuel a st) as Hq.
  rewrite Hrun in Hq. cbn [finalStore] in Hq.
  destruct Hq as (Hr & Hl & t & Ht & Hall).
  split; [done|]. split; [done|]. by rewrite (newEvents_app _ _ _ Ht).
Qed.

(** X3.  Reading an atom derived from a primitive atom [p] by [g] returns [g] of
    the value of [p], makes the atom a dependent of [p], and leaves the value
    of [p] as it is. *)
Theorem derived_read_value_and_edge d p g f st :
  derivedFrom def d p g -> passthrough def p ->
  exists st',
    readAtom def (S (S f)) d st = Ok (g (valueOf def p st)) st' /\
    d ∈ dependentsOf def p st' /\
    valueOf def p st' = valueOf def p st.
Proof.
  intros Hd Hp.
  destruct (readAtom_derived def d p g f st Hd Hp) as (st' & Hrun & _ & _ & _ & Hsp & _).
  exists st'. split; [done|]. unfold dependentsOf, valueOf. rewrite Hsp. cbn.
  split; [|done]. apply elem_of_setAdd. by right.
Qed.

(** X4.  After a write of a primitive atom has returned, a read of the atom
    returns what was written: the update itself, or the update applied to
    the previous value when it is a function. *)
Theorem write_then_read_primitive p i fuel u st st' f :
  def p = atom p (inr i) None ->
  writeAtom def fuel p u st = Ok tt st' ->
  exists st'',
    readAtom def (S f) p st' =
    Ok (if isFunction u then call u (valueOf def p st) else u) st''.
Proof.
  intros Hdef Hrun.
  rewrite readAtom_passthrough by (by eapply passthrough_atom).
  rewrite (writeAtom_primitive_value def p i fuel u st st' Hdef Hrun).
  eexists. reflexivity.
Qed.

(** X5.  After a write of a primitive atom [p] has returned, a read of an atom
    derived from [p] by [g] returns [g] of the value written. *)
Theorem write_then_read_derived d p g i fuel u st st' f :
  derivedFrom def d p g ->
  def p = atom p (inr i) None ->
  writeAtom def fuel p u st = Ok tt st' ->
  exists st'',
    readAtom def (S (S f)) d st' =
    Ok (g (if isFunction u then call u (valueOf def p st) else u)) st''.
Proof.
  intros Hd Hdef Hrun.
  destruct (readAtom_derived def d p g f st' Hd (passthrough_atom def p i None Hdef))
    as (st'' & Hread & _).
  exists st''. rewrite Hread.
  by rewrite (writeAtom_primitive_value def p i fuel u st st' Hdef Hrun).
Qed.

(** X6.  No atom becomes its own dependent: reads, notifications, writes and
    subscriptions keep every atom out of its own set of dependents. *)
Theorem no_atom_depends_on_itself fuel a v l st :
  noSelfDependent def st ->
  noSelfDependent def (finalStore (readAtom def fuel a st)) /\
  noSelfDependent def (finalStore (notify def fuel a st)) /\
  noSelfDependent def (finalStore (writeAtom def fuel a v st)) /\
  noSelfDependent def (finalStore (mount def fuel a l st)).
Proof.
  intros Hno. split; [|split; [|split]];
    (eapply edgesGrow_noSelfDependent; [|exact Hno]).
  - apply edgesGrow_readAtom.
  - apply edgesGrow_notify.
  - apply edgesGrow_writeAtom.
  - apply edgesGrow_mount.
Qed.

(** X7.  The [get] of a write function is not tracked: when no component is
    subscribed, a write, whatever its write function reads and sets, renders
    nothing and leaves every set of dependents as it was. *)
Theorem write_function_get_is_untracked fuel w v st :
  noListeners def st ->
  rendered (finalStore (writeAtom def fuel w v st)) = rendered st /\
  forall x,
    dependentsOf def x (finalStore (writeAtom def fuel w v st)) = dependentsOf def x st.
Proof.
  intros Hno. destruct (graphUntouched_writeAtom def fuel w v st Hno) as (_ & Hd & Hr).
  by split.
Qed.

(** X8.  The value of a primitive atom is changed by a write only: a read or a
    notification of any atom leaves it as it is, whether it returns or not. *)
Theorem primitive_value_survives_read_and_notify x fuel a st :
  passthrough def x ->
  valueOf def x (finalStore (readAtom def fuel a st)) = valueOf def x st /\
  valueOf def x (finalStore (notify def fuel a st)) = valueOf def x st.
Proof.
  intros Hx. split.
  - apply (sameValue_readAtom def x Hx fuel a st).
  - apply (sameValue_notify def x fuel a Hx st).
Qed.

(** X9.  Writing a derived atom created without a write function fails, with the
    [TypeError] of calling [undefined]: nothing is notified or rendered and
    no record changes. *)
Theorem write_readonly_throws a r f v st :
  def a = atom a (inl r) None ->
  exists st',
    writeAtom def (S f) a v st = Fail (NotAFunction a) st' /\
    trace st' = trace st /\
    rendered st' = rendered st /\
    forall x, stateOf def x st' = stateOf def x st.
Proof.
  intros Hdef. rewrite writeAtom_without_write by (by rewrite Hdef).
  eexists. split; [reflexivity|]. split; [done|]. split; [done|].
  intros x. by apply stateOf_touch.
Qed.


(** X11.  [notify] guards against an atom that is its own dependent only: when the
    dependent edges lead from each atom of a set to another atom of the set,
    notifying one of them never returns. *)
Theorem notify_cycle_never_returns cyc a st :
  dependentsCycle def cyc st -> cyc a ->
  neverReturns (fun fuel => notify def fuel a) st.
Proof.
  intros Hcyc Ha fuel. by apply (notify_forEachDependent_cycle def cyc fuel).
Qed.

(** X12.  A write of a primitive atom nobody depends on returns, given fuel for its
    listeners, and the atom then holds the value written.  Each component
    subscribed to it has been handed that value through its [setValue], once:
    its state is the value, or, when the value is a function, what the
    function returns for the state the component had.  The other components
    show what they did. *)
Theorem write_rerenders_subscribers p i fuel u st :
  def p = atom p (inr i) None ->
  dependentsOf def p st = [] ->
  NoDup (listenersOf def p st) ->
  length (listenersOf def p st) + 4 <= fuel ->
  exists st',
    writeAtom def fuel p u st = Ok tt st' /\
    valueOf def p st' = nextValue def p u st /\
    (forall l, l ∈ listenersOf def p st ->
       rendered st' !! l =
       Some (setState (nextValue def p u st) (componentState l st))) /\
    (forall l, l ∈ listenersOf def p st ->
       isFunction (nextValue def p u st) = false ->
       rendered st' !! l = Some (nextValue def p u st)) /\
    (forall l, l ∉ listenersOf def p st -> rendered st' !! l = rendered st !! l).
Proof.
  intros Hdef Hdep Hnd Hfuel.
  destruct (writeAtom_primitive_rendered def p i fuel u st Hdef Hdep Hfuel)
    as (st' & Hrun & Hv & Hin & Hout & _).
  exists st'. split; [done|]. split; [done|]. split; [by apply Hin|].
  split; [|done]. intros l Hl Hfun. rewrite (Hin Hnd l Hl).
  by rewrite setState_value.
Qed.

(** X13.  When a subscription returns, the component is among the listeners of the
    atom, and the value stored for the atom has been handed to its
    [setValue]: the component shows that value, or, when the value is a
    function, what the function returns for the state the component had. *)
Theorem mount_registers_and_renders fuel a l st st' :
  mount def fuel a l st = Ok tt st' ->
  l ∈ listenersOf def a st' /\
  rendered st' !! l = Some (setState (valueOf def a st') (componentState l st)) /\
  (isFunction (valueOf def a st') = false ->
   rendered st' !! l = Some (valueOf def a st')).
Proof.
  intros Hrun. destruct (mount_registered def fuel a l st st' Hrun) as [Hin Hr].
  split; [done|]. split; [done|]. intros Hfun. by rewrite Hr, setState_value.
Qed.

(** X14.  Unsubscribing undoes subscribing: for a component that was not
    subscribed, the listeners after [mount] and [unmount] are the listeners
    before. *)
Theorem mount_unmount_round_trip fuel a l st st1 :
  l ∉ listenersOf def a st ->
  mount def fuel a l st = Ok tt st1 ->
  listenersOf def a (finalStore (unmount def a l st1)) = listenersOf def a st.
Proof.
  intros Hl Hrun. rewrite unmount_listeners.
  unfold mount in Hrun.
  apply bind_Ok in Hrun as ([] & s1 & E1 & Hrun). injection E1 as <-.
  apply bind_Ok in Hrun as ([] & s2 & E2 & Hrun). injection E2 as <-.
  unfold callback in Hrun.
  apply bind_Ok in Hrun as (v & s3 & Hread & Hset). injection Hset as <-.
  match type of Hread with
  | readAtom _ _ _ ?s = _ => pose proof (quiet_readAtom def fuel a s) as Hq
  end.
  rewrite Hread in Hq. cbn [finalStore] in Hq. destruct Hq as (_ & Hls & _).
  unfold listenersOf in *. rewrite stateOf_mkStore, Hls. simpl_stateOf.
  by apply setDelete_setAdd.
Qed.

Lemma filter_eq_not_elem_of (l : listenerId) ls :
  l ∉ ls -> filter (fun x => x = l) ls = [].
Proof.
  induction ls as [|x ls IH]; [done|]. intros Hl.
  apply not_elem_of_cons in Hl as [Hne Hl].
  rewrite filter_cons_False by congruence. by apply IH.
Qed.

(** X15.  After a component has unsubscribed from a primitive atom, a write of the
    atom does not call its listener and does not change what it shows. *)
Theorem unmounted_listener_not_called p i l fuel u st :
  def p = atom p (inr i) None ->
  dependentsOf def p st = [] ->
  length (listenersOf def p st) + 4 <= fuel ->
  exists st2,
    writeAtom def fuel p u (finalStore (unmount def p l st)) = Ok tt st2 /\
    countListener p l (newEvents (finalStore (unmount def p l st)) st2) = 0 /\
    rendered st2 !! l = rendered st !! l.
Proof.
  intros Hdef Hdep Hfuel.
  set (st1 := finalStore (unmount def p l st)).
  assert (listenersOf def p st1 = setDelete l (listenersOf def p st)) as Hls.
  { apply unmount_listeners. }
  assert (dependentsOf def p st1 = []) as Hdep1.
  { unfold st1, unmount, deleteListener, dependentsOf. cbn [finalStore]. by simpl_stateOf. }
  assert (length (listenersOf def p st1) <= length (listenersOf def p st)) as Hlen.
  { rewrite Hls. unfold setDelete. apply length_filter. }
  assert (l ∉ listenersOf def p st1) as Hnot.
  { rewrite Hls. rewrite elem_of_setDelete. tauto. }
  destruct (writeAtom_primitive_alone def p i fuel u st1 Hdef Hdep1 ltac:(lia))
    as (st2 & Hrun & Htr & _).
  destruct (writeAtom_primitive_rendered def p i fuel u st1 Hdef Hdep1 ltac:(lia))
    as (st2' & Hrun' & _ & _ & Hout & _).
  rewrite Hrun in Hrun'. injection Hrun' as <-.
  exists st2. split; [done|]. split.
  - rewrite (newEvents_app _ _ _ Htr), countListener_passEvents.
    by rewrite filter_eq_not_elem_of.
  - by rewrite (Hout l Hnot).
Qed.


End CoreProperties.

Section EmptyStoreFacts.
Context `{JsValue} (def : atomId -> Atom).

Lemma stateOf_emptyStore x : stateOf def x emptyStore = freshState def x.
Proof. unfold stateOf, emptyStore. cbn. by rewrite lookup_empty. Qed.

Lemma noSelfDependent_emptyStore : noSelfDependent def emptyStore.
Proof.
  intros a. unfold dependentsOf. rewrite stateOf_emptyStore. cbn. apply not_elem_of_nil.
Qed.

Lemma noListeners_emptyStore : noListeners def emptyStore.
Proof. intros a. unfold listenersOf. by rewrite stateOf_emptyStore. Qed.

End EmptyStoreFacts.

(** ** The properties at the atoms of the guide *)

Section CorePropertyWitnesses.
Import Scenarios.

Lemma read_primitive_first_time_witness :
  exists st', readAtom shop 5 price emptyStore = Ok (JNum 10) st' /\
              valueOf shop price st' = JNum 10.
Proof.
  apply (read_primitive_first_time shop price (JNum 10) None 4 emptyStore);
    reflexivity.
Defined.

Lemma read_stores_and_is_silent_witness :
  valueOf shop doubled shopRead = JNum 20 /\
  rendered shopRead = rendered emptyStore /\
  (forall x, listenersOf shop x shopRead = listenersOf shop x emptyStore) /\
  Forall (fun e => isNotification e = false) (newEvents emptyStore shopRead).
Proof.
  apply (read_stores_and_is_silent shop 5 doubled emptyStore (JNum 20) shopRead).
  vm_compute. reflexivity.
Defined.

Lemma shop_doubled_derived : derivedFrom shop doubled price (onNum (Z.mul 2)).
Proof. split; [discriminate|reflexivity]. Qed.

Lemma shop_price_passthrough : passthrough shop price.
Proof. by apply (passthrough_atom shop price (JNum 10) None). Qed.

Lemma derived_read_value_and_edge_witness :
  exists st',
    readAtom shop 5 doubled emptyStore =
      Ok (onNum (Z.mul 2) (valueOf shop price emptyStore)) st' /\
    doubled ∈ dependentsOf shop price st' /\
    valueOf shop price st' = valueOf shop price emptyStore.
Proof.
  apply (derived_read_value_and_edge shop doubled price (onNum (Z.mul 2)) 3 emptyStore).
  - apply shop_doubled_derived.
  - apply shop_price_passthrough.
Defined.

Lemma write_then_read_primitive_witness :
  exists st'',
    readAtom shop 3 price (finalStore (writeAtom shop 10 price increment emptyStore)) =
    Ok (if isFunction increment
        then call increment (valueOf shop price emptyStore) else increment) st''.
Proof.
  apply (write_then_read_primitive shop price (JNum 10) 10 increment emptyStore
           (finalStore (writeAtom shop 10 price increment emptyStore)) 2).
  - reflexivity.
  - vm_compute. reflexivity.
Defined.

Lemma write_then_read_derived_witness :
  exists st'',
    readAtom shop 5 doubled (finalStore (writeAtom shop 10 price (JNum 25) shopRead)) =
    Ok (onNum (Z.mul 2)
          (if isFunction (JNum 25)
           then call (JNum 25) (valueOf shop price shopRead) else JNum 25)) st''.
Proof.
  apply (write_then_read_derived shop doubled price (onNum (Z.mul 2)) (JNum 10) 10
           (JNum 25) shopRead
           (finalStore (writeAtom shop 10 price (JNum 25) shopRead)) 3).
  - apply shop_doubled_derived.
  - reflexivity.
  - vm_compute. reflexivity.
Defined.

Lemma no_atom_depends_on_itself_witness :
  noSelfDependent till (finalStore (readAtom till 5 halved emptyStore)) /\
  noSelfDependent till (finalStore (notify till 5 halved emptyStore)) /\
  noSelfDependent till (finalStore (writeAtom till 5 halved (JNum 8) emptyStore)) /\
  noSelfDependent till (finalStore (mount till 5 halved 7 emptyStore)).
Proof.
  apply (no_atom_depends_on_itself till 5 halved (JNum 8) 7 emptyStore).
  apply noSelfDependent_emptyStore.
Defined.

Lemma write_function_get_is_untracked_witness :
  rendered (finalStore (writeAtom till 10 discount (JNum 3) emptyStore)) =
    rendered emptyStore /\
  forall x,
    dependentsOf till x (finalStore (writeAtom till 10 discount (JNum 3) emptyStore)) =
    dependentsOf till x emptyStore.
Proof.
  apply (write_function_get_is_untracked till 10 discount (JNum 3) emptyStore).
  apply noListeners_emptyStore.
Defined.

Lemma primitive_value_survives_read_and_notify_witness :
  valueOf shop price (finalStore (readAtom shop 5 doubled shopMounted)) =
    valueOf shop price shopMounted /\
  valueOf shop price (finalStore (notify shop 5 price shopMounted)) =
    valueOf shop price shopMounted.
Proof.
  apply (primitive_value_survives_read_and_notify shop price 5 doubled shopMounted).
  apply shop_price_passthrough.
Defined.

Lemma write_readonly_throws_witness :
  exists st',
    writeAtom shop 5 doubled (JNum 4) shopRead = Fail (NotAFunction doubled) st' /\
    trace st' = trace shopRead /\
    rendered st' = rendered shopRead /\
    forall x, stateOf shop x st' = stateOf shop x shopRead.
Proof.
  apply (write_readonly_throws shop doubled (read (shop doubled)) 4 (JNum 4) shopRead).
  reflexivity.
Defined.


Lemma loopStuck_cycle :
  dependentsCycle loop (fun x => x = ping \/ x = pong) loopStuck.
Proof.
  intros x [->| ->].
  - exists 0, pong. split; [vm_compute; reflexivity|]. split; [discriminate|by right].
  - exists 0, ping. split; [vm_compute; reflexivity|]. split; [discriminate|by left].
Qed.

Lemma notify_cycle_never_returns_witness :
  neverReturns (fun fuel => notify loop fuel ping) loopStuck.
Proof.
  apply (notify_cycle_never_returns loop (fun x => x = ping \/ x = pong) ping loopStuck).
  - apply loopStuck_cycle.
  - by left.
Defined.

Lemma priceMounted_listeners : listenersOf shop price priceMounted = [7].
Proof. vm_compute. reflexivity. Qed.

Lemma shopMounted_listeners : listenersOf shop doubled shopMounted = [7].
Proof. vm_compute. reflexivity. Qed.

Lemma write_rerenders_subscribers_witness :
  exists st',
    writeAtom shop 10 price (JConst constFive) priceMounted = Ok tt st' /\
    valueOf shop price st' = nextValue shop price (JConst constFive) priceMounted /\
    (forall l, l ∈ listenersOf shop price priceMounted ->
       rendered st' !! l =
       Some (setState (nextValue shop price (JConst constFive) priceMounted)
               (componentState l priceMounted))) /\
    (forall l, l ∈ listenersOf shop price priceMounted ->
       isFunction (nextValue shop price (JConst constFive) priceMounted) = false ->
       rendered st' !! l = Some (nextValue shop price (JConst constFive) priceMounted)) /\
    (forall l, l ∉ listenersOf shop price priceMounted ->
       rendered st' !! l = rendered priceMounted !! l).
Proof.
  apply (write_rerenders_subscribers shop price (JNum 10) 10 (JConst constFive)
           priceMounted).
  - reflexivity.
  - vm_compute. reflexivity.
  - rewrite priceMounted_listeners. apply NoDup_singleton.
  - vm_compute. lia.
Defined.

(** The atom holds the function [() => 5]; the component is handed it and
    shows [5], what React's [setValue] makes of a function. *)
Example function_value_is_applied_by_setValue :
  exists st',
    writeAtom shop 10 price (JConst constFive) priceMounted = Ok tt st' /\
    valueOf shop price st' = constFive /\
    rendered st' !! 7 = Some (JNum 5).
Proof. eexists. split; [|split]; vm_compute; reflexivity. Qed.

Lemma mount_registers_and_renders_witness :
  7 ∈ listenersOf shop doubled shopMounted /\
  rendered shopMounted !! 7 =
    Some (setState (valueOf shop doubled shopMounted) (componentState 7 emptyStore)) /\
  (isFunction (valueOf shop doubled shopMounted) = false ->
   rendered shopMounted !! 7 = Some (valueOf shop doubled shopMounted)).
Proof.
  apply (mount_registers_and_renders shop 5 doubled 7 emptyStore shopMounted).
  vm_compute. reflexivity.
Defined.

(** A component that subscribes to an atom holding [() => 5] shows [5]. *)
Example mount_on_function_valued_atom :
  valueOf shop price functionStored = constFive /\
  rendered (finalStore (mount shop 5 price 7 functionStored)) !! 7 = Some (JNum 5).
Proof. split; vm_compute; reflexivity. Qed.

Lemma mount_unmount_round_trip_witness :
  listenersOf shop doubled (finalStore (unmount shop doubled 8 
     (finalStore (mount shop 5 doubled 8 shopMounted)))) =
  listenersOf shop doubled shopMounted.
Proof.
  apply (mount_unmount_round_trip shop 5 doubled 8 shopMounted
           (finalStore (mount shop 5 doubled 8 shopMounted))).
  - assert (listenersOf shop doubled shopMounted = [7]) as -> by (vm_compute; reflexivity).
    intros Hin. inversion Hin as [|? ? ? Hin']. inversion Hin'.
  - vm_compute. reflexivity.
Defined.

Lemma unmounted_listener_not_called_witness :
  exists st2,
    writeAtom shop 10 price (JNum 25) (finalStore (unmount shop price 7 priceMounted)) =
      Ok tt st2 /\
    countListener price 7
      (newEvents (finalStore (unmount shop price 7 priceMounted)) st2) = 0 /\
    rendered st2 !! 7 = rendered priceMounted !! 7.
Proof.
  apply (unmounted_listener_not_called shop price (JNum 10) 7 10 (JNum 25) priceMounted).
  - reflexivity.
  - vm_compute. reflexivity.
  - vm_compute. lia.
Defined.


End CorePropertyWitnesses.

(** * The first version of the guide *)

Section FirstVersion.
Import CoreV1.
Context `{JsValue} (def : atomId -> Atom).

Lemma v1_stateOf_insert a s states0 r x :
  stateOf def x (mkStore (<[a := s]> states0) r) =
  if decide (x = a) then s else stateOf def x (mkStore states0 r).
Proof.
  unfold stateOf. cbn. case_decide as E.
  - subst. by rewrite lookup_insert_eq.
  - by rewrite lookup_insert_ne.
Qed.

Lemma v1_stateOf_eta st : mkStore (states st) (rendered st) = st.
Proof. by destruct st. Qed.

Lemma v1_stateOf_callback a l x st : stateOf def x (callback def a l st) = stateOf def x st.
Proof. done. Qed.

Lemma v1_componentState_lookup l st st' :
  rendered st' !! l = rendered st !! l -> componentState l st' = componentState l st.
Proof. unfold componentState. by intros ->. Qed.

Lemma v1_rendered_callback a x l st :
  rendered (callback def a x st) !! l =
  if decide (l = x)
  then Some (Core.setState (valueOf def a st) (componentState x st))
  else rendered st !! l.
Proof.
  unfold callback. cbn [rendered]. case_decide as E.
  - subst. by rewrite lookup_insert_eq.
  - by rewrite lookup_insert_ne.
Qed.

(** The walk over the listeners: each callback sets the state of its own
    component. *)
Lemma v1_foldl_callback a ls : forall st,
  states (foldl (fun s l => callback def a l s) st ls) = states st /\
  (forall l, l ∉ ls ->
     rendered (foldl (fun s l => callback def a l s) st ls) !! l = rendered st !! l) /\
  (NoDup ls -> forall l, l ∈ ls ->
     rendered (foldl (fun s l => callback def a l s) st ls) !! l =
     Some (Core.setState (valueOf def a st) (componentState l st))).
Proof.
  induction ls as [|x ls IH]; intros st.
  - split; [done|]. split; [done|]. intros _ l Hl. by apply elem_of_nil in Hl.
  - cbn [foldl]. destruct (IH (callback def a x st)) as (Hs & Hout & Hin).
    assert (valueOf def a (callback def a x st) = valueOf def a st) as Hv by done.
    split; [by rewrite Hs|]. split.
    + intros l Hl. apply not_elem_of_cons in Hl as [Hne Hl].
      rewrite (Hout l Hl), v1_rendered_callback. by rewrite decide_False.
    + intros Hnd l Hl. apply NoDup_cons in Hnd as [Hx Hnd].
      destruct (decide (l ∈ ls)) as [Hls|Hls].
      * rewrite (Hin Hnd l Hls), Hv. do 2 f_equal.
        apply v1_componentState_lookup. rewrite v1_rendered_callback.
        rewrite decide_False; [done|]. by intros ->.
      * apply elem_of_cons in Hl as [->|?]; [|done].
        rewrite (Hout x Hls), v1_rendered_callback. by rewrite decide_True.
Qed.

Lemma v1_setAtom_facts a v st :
  valueOf def a (setAtom def a v st) = v /\
  (NoDup (listenersOf def a st) -> forall l, l ∈ listenersOf def a st ->
     rendered (setAtom def a v st) !! l = Some (Core.setState v (componentState l st))) /\
  (forall l, l ∉ listenersOf def a st ->
     rendered (setAtom def a v st) !! l = rendered st !! l) /\
  listenersOf def a (setAtom def a v st) = listenersOf def a st /\
  (forall x, x <> a -> stateOf def x (setAtom def a v st) = stateOf def x st).
Proof.
  unfold setAtom. cbv zeta.
  set (st1 := mkStore (<[a := mkAtomState v (listenersOf def a st)]> (states st)) (rendered st)).
  assert (stateOf def a st1 = mkAtomState v (listenersOf def a st)) as Ha.
  { unfold st1. by rewrite v1_stateOf_insert, decide_True. }
  assert (listenersOf def a st1 = listenersOf def a st) as Hls.
  { unfold listenersOf at 1. by rewrite Ha. }
  assert (valueOf def a st1 = v) as Hv.
  { unfold valueOf. by rewrite Ha. }
  destruct (v1_foldl_callback a (listenersOf def a st1) st1) as (Hs & Hout & Hin).
  assert (forall x, stateOf def x (foldl (fun s l => callback def a l s) st1
                                     (listenersOf def a st1)) = stateOf def x st1) as Hst.
  { intros x. unfold stateOf. by rewrite Hs. }
  rewrite Hls in Hout, Hin. rewrite Hv in Hin.
  split; [|split; [|split; [|split]]].
  - unfold valueOf. by rewrite Hst, Ha.
  - intros Hnd l Hl. rewrite Hls. by rewrite (Hin Hnd l Hl).
  - intros l Hl. rewrite Hls. by rewrite (Hout l Hl).
  - unfold listenersOf at 1. by rewrite Hst, Ha.
  - intros x Hx. rewrite Hst. unfold st1.
    rewrite v1_stateOf_insert, decide_False by done. by rewrite v1_stateOf_eta.
Qed.

Lemma v1_effect_facts a l st :
  stateOf def a (effect def a l st) =
    mkAtomState (valueOf def a st) (Core.setAdd l (listenersOf def a st)) /\
  rendered (effect def a l st) !! l =
    Some (Core.setState (valueOf def a st) (componentState l st)).
Proof.
  unfold effect. split.
  - rewrite v1_stateOf_callback. by rewrite v1_stateOf_insert, decide_True.
  - rewrite v1_rendered_callback, decide_True by done. do 2 f_equal.
    unfold valueOf. by rewrite v1_stateOf_insert, decide_True.
Qed.

(** X17.  In the first version, [setAtom] stores its argument as it is, a
    function too.  Each component subscribed to the atom is handed the value
    through its [setValue], once: it then shows the value, or, when the
    value is a function, what the function returns for the state the
    component had.  The components not subscribed show what they did, and
    the subscriptions and the other atoms are as before. *)
Theorem v1_setAtom_rerenders_subscribers a v st :
  NoDup (listenersOf def a st) ->
  valueOf def a (setAtom def a v st) = v /\
  (forall l, l ∈ listenersOf def a st ->
     rendered (setAtom def a v st) !! l = Some (Core.setState v (componentState l st))) /\
  (forall l, l ∈ listenersOf def a st -> isFunction v = false ->
     rendered (setAtom def a v st) !! l = Some v) /\
  (forall l, l ∉ listenersOf def a st ->
     rendered (setAtom def a v st) !! l = rendered st !! l) /\
  listenersOf def a (setAtom def a v st) = listenersOf def a st /\
  (forall x, x <> a -> stateOf def x (setAtom def a v st) = stateOf def x st).
Proof.
  intros Hnd. destruct (v1_setAtom_facts a v st) as (Hv & Hin & Hout & Hls & Hoth).
  split; [done|]. split; [by apply Hin|]. split; [|done].
  intros l Hl Hfun. rewrite (Hin Hnd l Hl). by rewrite setState_value.
Qed.

(** X18.  In the first version, the effect of a component hands the value of
    the atom to the component's [setValue]; when the component has
    unsubscribed, the listeners are those from before (for a callback that
    was not among them), and a later [setAtom] no longer reaches the
    component: it shows what it showed after the effect. *)
Theorem v1_unsubscribed_component_keeps_value a l v st :
  l ∉ listenersOf def a st ->
  rendered (effect def a l st) !! l =
    Some (Core.setState (valueOf def a st) (componentState l st)) /\
  listenersOf def a (cleanup def a l (effect def a l st)) = listenersOf def a st /\
  valueOf def a (setAtom def a v (cleanup def a l (effect def a l st))) = v /\
  rendered (setAtom def a v (cleanup def a l (effect def a l st))) !! l =
    rendered (effect def a l st) !! l.
Proof.
  intros Hl. destruct (v1_effect_facts a l st) as [H1 Hr1].
  set (st1 := effect def a l st) in *.
  set (st2 := cleanup def a l st1).
  assert (listenersOf def a st2 = Core.setDelete l (Core.setAdd l (listenersOf def a st)))
    as H2.
  { unfold st2, cleanup, listenersOf at 1. rewrite v1_stateOf_insert, decide_True by done.
    cbn. unfold listenersOf at 1. by rewrite H1. }
  split; [done|]. split; [rewrite H2; by apply setDelete_setAdd|].
  destruct (v1_setAtom_facts a v st2) as (Hv & _ & Hout & _).
  split; [done|]. rewrite Hout; [done|].
  rewrite H2, elem_of_setDelete. tauto.
Qed.

End FirstVersion.

(** * A component on a derived atom *)

Section SubscriberFacts.
Context `{JsValue} (def : atomId -> Atom).

(** The effect of [useAtom (d)] for [d] derived from a primitive [p]. *)
Lemma mount_derived d p g f l st :
  derivedFrom def d p g -> passthrough def p ->
  exists st1,
    mount def (S (S f)) d l st = Ok tt st1 /\
    rendered st1 =
      <[l := setState (g (valueOf def p st)) (componentState l st)]> (rendered st) /\
    stateOf def d st1 =
      mkAtomState (g (valueOf def p st)) (setAdd l (listenersOf def d st))
        (dependentsOf def d st) /\
    stateOf def p st1 =
      mkAtomState (valueOf def p st) (listenersOf def p st)
        (setAdd d (dependentsOf def p st)) /\
    forall x, x <> d -> x <> p -> stateOf def x st1 = stateOf def x st.
Proof.
  intros Hd Hp. pose proof Hd as [Hne _].
  unfold mount. unfold bind at 1, getAtomState. cbv beta match.
  unfold bind at 1, addListener. cbv beta match.
  match goal with |- context [callback _ _ _ _ ?s] => set (st0 := s) end.
  assert (stateOf def d st0 =
          mkAtomState (valueOf def d st) (setAdd l (listenersOf def d st))
            (dependentsOf def d st)) as Hd0.
  { unfold st0. by simpl_stateOf. }
  assert (forall x, x <> d -> stateOf def x st0 = stateOf def x st) as Hoth0.
  { intros x Hx. unfold st0. by simpl_stateOf. }
  assert (rendered st0 = rendered st) as Hr0 by done.
  destruct (readAtom_derived def d p g f st0 Hd Hp)
    as (st1 & Hrun & _ & Hr & Hsd & Hsp & Hoth).
  unfold callback, bind. rewrite Hrun. unfold setRendered.
  assert (valueOf def p st0 = valueOf def p st) as Hv0.
  { unfold valueOf. by rewrite Hoth0. }
  eexists. split; [reflexivity|]. cbn [rendered].
  split.
  { rewrite Hr, Hr0, Hv0. do 2 f_equal. apply componentState_lookup.
    by rewrite Hr, Hr0. }
  split; [|split].
  - rewrite stateOf_mkStore, Hsd, Hv0. unfold listenersOf, dependentsOf.
    by rewrite Hd0.
  - rewrite stateOf_mkStore, Hsp, Hv0. unfold listenersOf, dependentsOf.
    by rewrite Hoth0.
  - intros x Hxd Hxp. by rewrite stateOf_mkStore, Hoth, Hoth0.
Qed.

(** X19.  A component calls [useAtom] on an atom derived by [g] from a
    primitive atom, both not used before, and the primitive atom is then
    written.  When [g] of the initial value and [g] of the value written are
    not functions, the component shows the first after its effect and the
    second after the write.  In general the two are handed to its [setValue]
    in turn, which calls a function with the state the component has. *)
Theorem subscriber_of_derived_follows_parent d p g i l u f st :
  derivedFrom def d p g ->
  def p = atom p (inr i) None ->
  states st !! p = None ->
  states st !! d = None ->
  exists st1 st2,
    mount def (S (S f)) d l st = Ok tt st1 /\
    writeAtom def (8 + f) p u st1 = Ok tt st2 /\
    rendered st1 !! l = Some (setState (g i) (componentState l st)) /\
    rendered st2 !! l =
      Some (setState (g (if isFunction u then call u i else u))
              (setState (g i) (componentState l st))) /\
    (isFunction (g i) = false -> rendered st1 !! l = Some (g i)) /\
    (isFunction (g (if isFunction u then call u i else u)) = false ->
     rendered st2 !! l = Some (g (if isFunction u then call u i else u))).
Proof.
  intros Hd Hdef Hp0 Hd0. pose proof Hd as [Hne _].
  assert (passthrough def p) as Hp by (by eapply passthrough_atom).
  assert (stateOf def p st = freshState def p) as Hfp.
  { unfold stateOf. by rewrite Hp0. }
  assert (stateOf def d st = freshState def d) as Hfd.
  { unfold stateOf. by rewrite Hd0. }
  assert (valueOf def p st = i) as Hv.
  { unfold valueOf. rewrite Hfp. unfold freshState. by rewrite Hdef. }
  destruct (mount_derived d p g f l st Hd Hp) as (st1 & Hrun & Hr & Hsd & Hsp & _).
  unfold listenersOf, dependentsOf in Hsd, Hsp. rewrite Hfd in Hsd. rewrite Hfp in Hsp.
  cbn in Hsd, Hsp. rewrite Hv in Hr, Hsd, Hsp.
  assert (forall x : nat, setAdd x [] = [x]) as Hnil by done.
  rewrite Hnil in Hsd, Hsp.
  destruct (writeAtom_derived_rendered def d p g i (8 + f) u st1 Hd Hdef)
    as (st2 & Hrun2 & _ & _ & Hin & _).
  { unfold dependentsOf. by rewrite Hsp. }
  { unfold dependentsOf. by rewrite Hsd. }
  { unfold listenersOf. by rewrite Hsp. }
  { unfold listenersOf. rewrite Hsd. cbn. lia. }
  assert (rendered st1 !! l = Some (setState (g i) (componentState l st))) as Hr1.
  { by rewrite Hr, lookup_insert_eq. }
  assert (rendered st2 !! l =
          Some (setState (g (if isFunction u then call u i else u))
                  (setState (g i) (componentState l st)))) as Hr2.
  { rewrite (Hin ltac:(unfold listenersOf; rewrite Hsd; apply NoDup_singleton) l).
    - unfold nextValue, valueOf, componentState. by rewrite Hsp, Hr1.
    - unfold listenersOf. rewrite Hsd. cbn. by apply list_elem_of_singleton. }
  exists st1, st2. do 4 (split; [done|]). split.
  - intros Hfun. by rewrite Hr1, setState_value.
  - intros Hfun. by rewrite Hr2, setState_value.
Qed.


End SubscriberFacts.

(** * What a write and a notification leave alone *)

Section InvariantFacts.
Context `{JsValue} (def : atomId -> Atom).

Lemma sameListeners_refl st : sameListeners def st st.
Proof. by intros x. Qed.

Lemma sameListeners_trans st1 st2 st3 :
  sameListeners def st1 st2 -> sameListeners def st2 st3 -> sameListeners def st1 st3.
Proof. intros H1 H2 x. by rewrite H2, H1. Qed.

Lemma sameListeners_updState a f st :
  (forall s, listeners (f s) = listeners s) -> sameListeners def st (updState def a f st).
Proof.
  intros Hf x. rewrite listenersOf_updState. case_decide; [subst; apply Hf|done].
Qed.

Lemma sameListeners_readAtom f a : preserves (sameListeners def) (readAtom def f a).
Proof. intros st. by destruct (quiet_readAtom def f a st) as (_ & Hl & _). Qed.

Lemma sameListeners_notify f a : preserves (sameListeners def) (notify def f a).
Proof.
  apply preserves_notify.
  - apply sameListeners_refl.
  - apply sameListeners_trans.
  - intros b st. by apply sameListeners_updState.
  - by intros l v st.
  - by intros b st.
  - by intros b l st.
  - intros f' b. apply sameListeners_readAtom.
Qed.

Lemma sameListeners_writeAtom f a v : preserves (sameListeners def) (writeAtom def f a v).
Proof.
  apply preserves_writeAtom.
  - apply sameListeners_refl.
  - apply sameListeners_trans.
  - intros b st. by apply sameListeners_updState.
  - by intros l u st.
  - by intros b st.
  - by intros b l st.
  - intros f' b. apply sameListeners_readAtom.
  - intros b u st. by apply sameListeners_updState.
Qed.

Lemma dependentsExtended_writeAtom f a v :
  preserves (dependentsExtended def) (writeAtom def f a v).
Proof.
  apply preserves_writeAtom.
  - apply dependentsExtended_refl.
  - apply dependentsExtended_trans.
  - intros b st. by apply dependentsExtended_updState.
  - apply dependentsExtended_setRendered.
  - intros b. apply dependentsExtended_emit.
  - intros b l. apply dependentsExtended_emit.
  - intros f' b. apply dependentsExtended_readAtom.
  - intros b u st. by apply dependentsExtended_updState.
Qed.

Lemma dependentsExtended_mount f a l :
  preserves (dependentsExtended def) (mount def f a l).
Proof.
  unfold mount.
  apply preserves_bind;
    [apply dependentsExtended_trans|intros st; by apply dependentsExtended_updState|intros _].
  apply preserves_bind;
    [apply dependentsExtended_trans|intros st; by apply dependentsExtended_updState|intros _].
  apply preserves_callback.
  - apply dependentsExtended_trans.
  - apply dependentsExtended_setRendered.
  - intros f' b. apply dependentsExtended_readAtom.
Qed.

Lemma dependentsExtended_unmount a l st :
  dependentsExtended def st (finalStore (unmount def a l st)).
Proof. unfold unmount, deleteListener. cbn [finalStore]. by apply dependentsExtended_updState. Qed.

(** X21.  Only subscribing and unsubscribing change who listens: after a write or
    a notification, returned or failed, every atom has the listeners it
    had, whatever the listeners called in between did. *)
Theorem listeners_changed_by_subscription_only fuel a v st :
  (forall x, listenersOf def x (finalStore (writeAtom def fuel a v st)) =
             listenersOf def x st) /\
  (forall x, listenersOf def x (finalStore (notify def fuel a st)) =
             listenersOf def x st).
Proof.
  split.
  - apply (sameListeners_writeAtom fuel a v st).
  - apply (sameListeners_notify fuel a st).
Qed.

(** X22.  A dependent is never removed, and keeps its place in the order in which
    [notify] walks the dependents: reads, notifications, writes,
    subscriptions and unsubscriptions add dependents at the end only. *)
Theorem dependent_keeps_position x i y fuel a v l st :
  dependentsOf def x st !! i = Some y ->
  dependentsOf def x (finalStore (readAtom def fuel a st)) !! i = Some y /\
  dependentsOf def x (finalStore (notify def fuel a st)) !! i = Some y /\
  dependentsOf def x (finalStore (writeAtom def fuel a v st)) !! i = Some y /\
  dependentsOf def x (finalStore (mount def fuel a l st)) !! i = Some y /\
  dependentsOf def x (finalStore (unmount def a l st)) !! i = Some y.
Proof.
  intros Hl. split; [|split; [|split; [|split]]];
    (eapply dependentsExtended_lookup; [|exact Hl]).
  - apply dependentsExtended_readAtom.
  - apply dependentsExtended_notify.
  - apply dependentsExtended_writeAtom.
  - apply dependentsExtended_mount.
  - apply dependentsExtended_unmount.
Qed.

End InvariantFacts.

Section MorePropertyWitnesses.
Import Scenarios.

Lemma subscriber_of_derived_follows_parent_witness :
  exists st1 st2,
    mount shop 5 doubled 7 emptyStore = Ok tt st1 /\
    writeAtom shop 11 price increment st1 = Ok tt st2 /\
    rendered st1 !! 7 =
      Some (setState (onNum (Z.mul 2) (JNum 10)) (componentState 7 emptyStore)) /\
    rendered st2 !! 7 =
      Some (setState
              (onNum (Z.mul 2)
                 (if isFunction increment then call increment (JNum 10) else increment))
              (setState (onNum (Z.mul 2) (JNum 10)) (componentState 7 emptyStore))) /\
    (isFunction (onNum (Z.mul 2) (JNum 10)) = false ->
     rendered st1 !! 7 = Some (onNum (Z.mul 2) (JNum 10))) /\
    (isFunction
       (onNum (Z.mul 2)
          (if isFunction increment then call increment (JNum 10) else increment)) = false ->
     rendered st2 !! 7 =
     Some (onNum (Z.mul 2)
             (if isFunction increment then call increment (JNum 10) else increment))).
Proof.
  apply (subscriber_of_derived_follows_parent shop doubled price (onNum (Z.mul 2))
           (JNum 10) 7 increment 3 emptyStore).
  - apply shop_doubled_derived.
  - reflexivity.
  - reflexivity.
  - reflexivity.
Defined.


Lemma dependent_keeps_position_witness :
  dependentsOf shop price (finalStore (readAtom shop 5 doubled shopRead)) !! 0 =
    Some doubled /\
  dependentsOf shop price (finalStore (notify shop 5 price shopRead)) !! 0 =
    Some doubled /\
  dependentsOf shop price (finalStore (writeAtom shop 5 price (JNum 1) shopRead)) !! 0 =
    Some doubled /\
  dependentsOf shop price (finalStore (mount shop 5 doubled 7 shopRead)) !! 0 =
    Some doubled /\
  dependentsOf shop price (finalStore (unmount shop doubled 7 shopRead)) !! 0 =
    Some doubled.
Proof.
  apply (dependent_keeps_position shop price 0 doubled 5 doubled (JNum 1) 7 shopRead).
  vm_compute. reflexivity.
Defined.

Lemma counterMounted_listeners : CoreV1.listenersOf counter 0 counterMounted = [7; 8].
Proof. vm_compute. reflexivity. Qed.

Lemma v1_setAtom_rerenders_subscribers_witness :
  CoreV1.valueOf counter 0 (CoreV1.setAtom counter 0 increment counterMounted) =
    increment /\
  (forall l, l ∈ CoreV1.listenersOf counter 0 counterMounted ->
     CoreV1.rendered (CoreV1.setAtom counter 0 increment counterMounted) !! l =
     Some (setState increment (CoreV1.componentState l counterMounted))) /\
  (forall l, l ∈ CoreV1.listenersOf counter 0 counterMounted ->
     isFunction increment = false ->
     CoreV1.rendered (CoreV1.setAtom counter 0 increment counterMounted) !! l =
     Some increment) /\
  (forall l, l ∉ CoreV1.listenersOf counter 0 counterMounted ->
     CoreV1.rendered (CoreV1.setAtom counter 0 increment counterMounted) !! l =
     CoreV1.rendered counterMounted !! l) /\
  CoreV1.listenersOf counter 0 (CoreV1.setAtom counter 0 increment counterMounted) =
    CoreV1.listenersOf counter 0 counterMounted /\
  (forall x, x <> 0 ->
     CoreV1.stateOf counter x (CoreV1.setAtom counter 0 increment counterMounted) =
     CoreV1.stateOf counter x counterMounted).
Proof.
  apply (v1_setAtom_rerenders_subscribers counter 0 increment counterMounted).
  rewrite counterMounted_listeners. apply NoDup_cons. split.
  - intros Hin. inversion Hin as [|? ? ? Hin']. inversion Hin'.
  - apply NoDup_singleton.
Defined.

(** [setAtom ((x) => x + 1)] in the first version: the atom holds the
    function, and the two components, which showed [0], show [1]. *)
Example v1_function_value_is_applied_by_setValue :
  CoreV1.valueOf counter 0 (CoreV1.setAtom counter 0 increment counterMounted) =
    increment /\
  CoreV1.rendered (CoreV1.setAtom counter 0 increment counterMounted) !! 7 =
    Some (JNum 1) /\
  CoreV1.rendered (CoreV1.setAtom counter 0 increment counterMounted) !! 8 =
    Some (JNum 1).
Proof. split; [|split]; vm_compute; reflexivity. Qed.

Lemma v1_unsubscribed_component_keeps_value_witness :
  CoreV1.rendered (CoreV1.effect counter 0 9 counterMounted) !! 9 =
    Some (setState (CoreV1.valueOf counter 0 counterMounted)
            (CoreV1.componentState 9 counterMounted)) /\
  CoreV1.listenersOf counter 0
    (CoreV1.cleanup counter 0 9 (CoreV1.effect counter 0 9 counterMounted)) =
    CoreV1.listenersOf counter 0 counterMounted /\
  CoreV1.valueOf counter 0
    (CoreV1.setAtom counter 0 (JNum 5)
       (CoreV1.cleanup counter 0 9 (CoreV1.effect counter 0 9 counterMounted))) =
    JNum 5 /\
  CoreV1.rendered
    (CoreV1.setAtom counter 0 (JNum 5)
       (CoreV1.cleanup counter 0 9 (CoreV1.effect counter 0 9 counterMounted))) !! 9 =
    CoreV1.rendered (CoreV1.effect counter 0 9 counterMounted) !! 9.
Proof.
  apply (v1_unsubscribed_component_keeps_value counter 0 9 (JNum 5) counterMounted).
  rewrite counterMounted_listeners. intros Hin.
  inversion Hin as [|? ? ? Hin']. inversion Hin' as [|? ? ? Hin'']. inversion Hin''.
Defined.

End MorePropertyWitnesses.

(** * Write functions that set another atom *)

Section WriteFunctionFacts.
Context `{JsValue} (def : atomId -> Atom).

(** A write function that only sets another atom hands the write on. *)
Lemma writeAtom_forward w p h f arg st :
  write (def w) = Some (fun x => WSet p (h x) WRet) ->
  w <> p ->
  writeAtom def (S f) w arg st =
  writeAtom def f p (h arg) (updState def w (fun s => s) st).
Proof.
  intros Hw Hne. rewrite writeAtom_S, Hw. unfold bind at 1, getAtomState.
  cbv beta match. cbn [runWrite]. rewrite bind_ret_tt.
  unfold setFrom. by rewrite decide_False.
Qed.

(** A write function that reads an atom and sets it, as the write-only atom
    of the guide does. *)
Lemma writeAtom_get_then_set w p h f arg st :
  write (def w) = Some (fun x => WGet p (fun cur => WSet p (h cur x) WRet)) ->
  w <> p ->
  writeAtom def (S f) w arg st =
  writeAtom def f p (h (valueOf def p st) arg)
    (updState def p (fun s => s) (updState def w (fun s => s) st)).
Proof.
  intros Hw Hne. rewrite writeAtom_S, Hw. unfold bind at 1, getAtomState.
  cbv beta match. cbn [runWrite]. unfold untrackedGet.
  unfold bind at 1. unfold bind at 1, getAtomState, getValue. cbv beta match.
  rewrite bind_ret_tt. unfold setFrom. rewrite decide_False by done.
  rewrite !stateOf_updState. rewrite decide_True by done.
  by rewrite decide_False by done.
Qed.



End WriteFunctionFacts.

Section WriteFunctionWitnesses.
Import Scenarios.


Lemma till_halved_derived : derivedFrom till halved price (onNum (Z.mul 2)).
Proof. split; [discriminate|reflexivity]. Qed.


End WriteFunctionWitnesses.
